(** * TXmlConfig: flattening of an XML tree into a path-addressed store

    A shallow embedding of [TXmlConfig.h] (class [TXmlConfig]) and the
    properties of its flattening, path canonicalisation and typed
    accessors.

    - [std::string] is [string] (a list of 8-bit characters);
    - [std::map<std::string, std::string>] is a [gmap string string];
      iteration over it ([for (auto kv : mNodes)]) visits the entries in
      increasing key order, which is [entries] below;
    - the node tree handed out by [TXMLEngine] is the inductive [XMLNode];
    - [std::string::npos] results are [option nat];
    - member functions take the object state as an argument and return
      the new state. *)

From stdpp Require Import base option list sorting gmap strings.
From Stdlib Require Import ZArith Ascii String SpecFloat.
From Stdlib Require Import DecimalString DecimalZ DecimalNat DecimalN.

Local Open Scope string_scope.
Local Open Scope nat_scope.

(** ** [std::string] primitives used by the class *)

Module Str.

(** [std::isspace] in the "C" locale: space, \t, \n, \v, \f, \r. *)
Definition isspace (c : ascii) : bool :=
  let n := nat_of_ascii c in
  (n =? 32) || ((9 <=? n) && (n <=? 13)).

(** [s.erase(std::remove_if(s.begin(), s.end(), isspace), s.end())] *)
Fixpoint remove_space (s : string) : string :=
  match s with
  | EmptyString => EmptyString
  | String c s' =>
      if isspace c then remove_space s' else String c (remove_space s')
  end.

(** [s] begins with [pat]. *)
Fixpoint starts_with (pat s : string) : bool :=
  match pat, s with
  | EmptyString, _ => true
  | String _ _, EmptyString => false
  | String a pat', String b s' =>
      if Ascii.eqb a b then starts_with pat' s' else false
  end.

(** [s.find(pat)]: position of the first occurrence of [pat] in [s],
    [None] for [npos]. *)
Fixpoint find (pat s : string) : option nat :=
  if starts_with pat s then Some 0
  else match s with
       | EmptyString => None
       | String _ s' => S <$> find pat s'
       end.

(** The characters of [s] from position [n] on. *)
Fixpoint drop (n : nat) (s : string) : string :=
  match n, s with
  | 0, _ => s
  | S _, EmptyString => EmptyString
  | S n', String _ s' => drop n' s'
  end.

(** [s.erase(pos, len)] for [pos <= s.size()]: removes [len] characters
    (or as many as there are) from position [pos] on. *)
Fixpoint erase (pos len : nat) (s : string) : string :=
  match pos, s with
  | 0, _ => drop len s
  | S _, EmptyString => EmptyString
  | S pos', String c s' => String c (erase pos' len s')
  end.

(** [s.substr(0, n)]: the first [n] characters, the whole of [s] when it
    is shorter. *)
Definition substr0 (n : nat) (s : string) : string := substring 0 n s.

End Str.

(** ** The flat store *)

(** [static const] members of the class. *)
Definition valDNE : string := "<DNE/>".
Definition pathDelim : string := ".".
Definition attrDelim : string := ":".

(** The data members of a [TXmlConfig] object. *)
Record TXmlConfig := mkConfig {
  mErrorParsing : bool;
  mNodes : gmap string string
}.

(** A default-constructed object. *)
Definition TXmlConfig_new : TXmlConfig :=
  {| mErrorParsing := false; mNodes := ∅ |}.

(** [mNodes.count(path)]: 0 or 1. *)
Definition count (m : gmap string string) (path : string) : nat :=
  match m !! path with Some _ => 1 | None => 0 end.

(** Iteration over a [std::map] visits its entries by increasing key;
    keys compare as sequences of unsigned characters. *)
Definition key_le (a b : string * string) : Prop := String.le a.1 b.1.

#[global] Instance key_le_dec : RelDecision key_le.
Proof. intros a b. unfold key_le. apply _. Defined.

Definition entries (m : gmap string string) : list (string * string) :=
  merge_sort key_le (map_to_list m).

(** [TXmlConfig::canonize]: the path is returned instead of updated in
    place. *)
Definition canonize (path : string) : string :=
  (* remove whitespace *)
  let path := Str.remove_space path in
  let pos := Str.find "[0]" path in
  let len := match pos with Some _ => 3 | None => 0 end in
  let pos := match pos with Some p => p | None => 0 end in
  Str.erase pos len path.

(** [TXmlConfig::exists] *)
Definition exists_ (cfg : TXmlConfig) (path : string) : bool :=
  let path := canonize path in
  if count (mNodes cfg) path =? 0 then false else true.

(** ** Text to value conversions

    The generic [convert<T>] and [convertTo<T>] go through a
    [std::stringstream]; what the stream does for [T] is the instance of
    [Streamable].  The local [T rv;] of [convert<T>] is not initialised:
    [extract rv s] is the content of [rv] after [sstr >> rv] on a stream
    holding [s], when it held [rv] before.

    The stream is the C++ library's, not code of this class: [Stream]
    and [Double] below are models of its behaviour in the "C" locale with
    the flags of a fresh stream, after the C++ standard ([num_get],
    [num_put]) and the C standard ([printf], [strtod]) it refers to. *)

Class Streamable (T : Type) := {
  extract : T → string → T;   (* sstr << s; sstr >> rv *)
  insert_ : T → string         (* sstr << v; sstr.str() *)
}.

Module Stream.

(** What the sentry of a formatted input function does: skip leading
    whitespace. *)
Fixpoint skipws (s : string) : string :=
  match s with
  | EmptyString => EmptyString
  | String c s' => if Str.isspace c then skipws s' else s
  end.

Definition digit (c : ascii) : option Z :=
  let n := nat_of_ascii c in
  if (48 <=? n) && (n <=? 57) then Some (Z.of_nat (n - 48)) else None.

(** Accumulate the leading decimal digits of [s]; [seen] tells whether a
    digit was read already. *)
Fixpoint digits (s : string) (acc : Z) (seen : bool) : option Z :=
  match s with
  | EmptyString => if seen then Some acc else None
  | String c s' =>
      match digit c with
      | Some d => digits s' (10 * acc + d)%Z true
      | None => if seen then Some acc else None
      end
  end.

(** The integer field at the head of [s]: an optional sign and at least
    one digit. *)
Definition scan_integer (s : string) : option Z :=
  match s with
  | String "-" s' => Z.opp <$> digits s' 0%Z false
  | String "+" s' => digits s' 0%Z false
  | _ => digits s 0%Z false
  end.

Definition INT_MIN : Z := (- 2 ^ 31)%Z.
Definition INT_MAX : Z := (2 ^ 31 - 1)%Z.

Definition clamp (v : Z) : Z :=
  if (v <? INT_MIN)%Z then INT_MIN
  else if (INT_MAX <? v)%Z then INT_MAX else v.

(** [sstr >> rv] for [int rv]: when only whitespace is left the sentry
    fails and [rv] keeps its content; a field that is no number stores
    0; a number out of range stores the nearest bound. *)
Definition extract_int (rv : Z) (s : string) : Z :=
  match skipws s with
  | EmptyString => rv
  | s' => match scan_integer s' with
          | Some v => clamp v
          | None => 0%Z
          end
  end.

(** [sstr << v] for [int v]: decimal digits, [-] for a negative one. *)
Definition insert_int (v : Z) : string :=
  NilZero.string_of_int (Z.to_int v).

End Stream.

#[global] Instance int_Streamable : Streamable Z :=
  {| extract := Stream.extract_int; insert_ := Stream.insert_int |}.

(** ** [double] through the stream

    A [double] is an IEEE binary64 number, a [spec_float] with a mantissa
    of 53 bits.  The stream writes it as [printf("%g")] does, with six
    significant digits, and reads a decimal number as [strtod] does, to
    the nearest [double].  Both are computed on exact fractions
    [n / d]. *)

Module Double.
Local Open Scope Z_scope.

(** [n / d] rounded to the nearest integer, a tie to the even one. *)
Definition round_half_even (n d : Z) : Z :=
  let q := n / d in
  match 2 * (n mod d) ?= d with
  | Lt => q
  | Gt => q + 1
  | Eq => if Z.even q then q else q + 1
  end.

(** [n / d] times [b ^ k], as a fraction. *)
Definition scale (b k n d : Z) : Z * Z :=
  if 0 <=? k then (n * b ^ k, d) else (n, d * b ^ (- k)).

(** How many decimal digits [z] has. *)
Definition ndigits (z : Z) : Z :=
  Z.of_nat (String.length (NilZero.string_of_uint (N.to_uint (Z.to_N z)))).

(** The [k] with [2 ^ k <= n / d < 2 ^ (k + 1)], for [0 < n] and
    [0 < d]: below 1 it is the opposite of the least [k] with
    [d / n <= 2 ^ k]. *)
Definition floor_log2 (n d : Z) : Z :=
  if d <=? n then Z.log2 (n / d) else - Z.log2_up ((d + n - 1) / n).

(** The [k] with [10 ^ k <= n / d < 10 ^ (k + 1)]. *)
Definition floor_log10 (n d : Z) : Z :=
  if d <=? n then ndigits (n / d) - 1 else - ndigits ((d - 1) / n).

(** [DBL_MAX] and its opposite. *)
Definition max_finite (s : bool) : spec_float :=
  S754_finite s (2 ^ 53 - 1) 971.

(** The binary64 number nearest to [n / d] ([0 <= n], [0 < d]) with sign
    [s], a tie to the even mantissa; an infinity above the range. *)
Definition nearest (s : bool) (n d : Z) : spec_float :=
  if n =? 0 then S754_zero s
  else
    let e := Z.max (floor_log2 n d - 52) (-1074) in
    let '(n', d') := scale 2 (- e) n d in
    let m := round_half_even n' d' in
    let '(m, e) := if m =? 2 ^ 53 then (2 ^ 52, e + 1) else (m, e) in
    if 971 <? e then S754_infinity s
    else match m with
         | Zpos p => S754_finite s p e
         | _ => S754_zero s
         end.

Definition digit_char (d : Z) : ascii := ascii_of_nat (48 + Z.to_nat d).

(** The last [width] decimal digits of [n]. *)
Fixpoint pad_digits (width : nat) (n : Z) : string :=
  match width with
  | O => EmptyString
  | S w => pad_digits w (n / 10) ++ String (digit_char (n mod 10)) EmptyString
  end.

Fixpoint take (n : nat) (s : string) : string :=
  match n, s with
  | S n', String c s' => String c (take n' s')
  | _, _ => EmptyString
  end.

Fixpoint zeros (n : nat) : string :=
  match n with O => EmptyString | S n' => String "0" (zeros n') end.

(** [frac] without its trailing zeros. *)
Fixpoint strip_zeros (frac : string) : string :=
  match frac with
  | EmptyString => EmptyString
  | String c frac' =>
      match strip_zeros frac' with
      | EmptyString =>
          if Ascii.eqb c "0" then EmptyString else String c EmptyString
      | t => String c t
      end
  end.

(** The decimal point goes when no digit is left behind it. *)
Definition with_fraction (int frac : string) : string :=
  match strip_zeros frac with
  | EmptyString => int
  | f => int ++ "." ++ f
  end.

(** The exponent of style [e]: a sign and two digits at least. *)
Definition exponent (x : Z) : string :=
  (if x <? 0 then "e-" else "e+") ++
  (if Z.abs x <? 10 then "0" else "") ++
  NilZero.string_of_uint (N.to_uint (Z.to_N (Z.abs x))).

(** [printf("%g")] of [m * 2 ^ e]: six significant digits, style [f] for
    a decimal exponent from -4 to 5 and style [e] otherwise, trailing
    zeros removed. *)
Definition format_finite (m : positive) (e : Z) : string :=
  let '(n, d) := scale 2 e (Zpos m) 1 in
  let x := floor_log10 n d in
  let '(n', d') := scale 10 (5 - x) n d in
  let sig := round_half_even n' d' in
  let '(sig, x) := if sig =? 1000000 then (100000, x + 1) else (sig, x) in
  let digits := pad_digits 6 sig in
  if (-4 <=? x) && (x <? 6) then
    if 0 <=? x then
      with_fraction (take (Z.to_nat (x + 1)) digits)
                    (Str.drop (Z.to_nat (x + 1)) digits)
    else with_fraction "0" (zeros (Z.to_nat (- x - 1)) ++ digits)
  else with_fraction (take 1 digits) (Str.drop 1 digits) ++ exponent x.

Definition sign_text (s : bool) : string := if s then "-" else "".

(** [sstr << v] for [double v], with the flags of a fresh stream. *)
Definition insert_double (v : spec_float) : string :=
  match v with
  | S754_zero s => sign_text s ++ "0"
  | S754_infinity s => sign_text s ++ "inf"
  | S754_nan => "nan"
  | S754_finite s m e => sign_text s ++ format_finite m e
  end.

(** An optional sign at the head of [s]. *)
Definition take_sign (s : string) : bool * string :=
  match s with
  | String "-" s' => (true, s')
  | String "+" s' => (false, s')
  | _ => (false, s)
  end.

(** The decimal digits at the head of [s]: their value after [acc], how
    many there are, and what follows. *)
Fixpoint take_digits (s : string) (acc : Z) (n : Z) : Z * Z * string :=
  match s with
  | EmptyString => (acc, n, s)
  | String c s' =>
      match Stream.digit c with
      | Some d => take_digits s' (10 * acc + d) (n + 1)
      | None => (acc, n, s)
      end
  end.

(** The floating-point field at the head of [s]: the sign, the decimal
    mantissa [m] and the decimal exponent [x] of the value [m * 10 ^ x];
    [None] when the characters the stream takes are no number. *)
Definition scan_float (s : string) : option (bool * Z * Z) :=
  let '(neg, s) := take_sign s in
  let '(i, ni, s) := take_digits s 0 0 in
  let '(m, nf, s) :=
    match s with
    | String "." s' => take_digits s' i 0
    | _ => (i, 0, s)
    end in
  if ni + nf =? 0 then None
  else
    let exponent_of s' :=
      let '(eneg, s'') := take_sign s' in
      let '(x, nx, _) := take_digits s'' 0 0 in
      if nx =? 0 then None
      else Some (neg, m, (if eneg then - x else x) - nf) in
    match s with
    | String "e" s' => exponent_of s'
    | String "E" s' => exponent_of s'
    | _ => Some (neg, m, - nf)
    end.

(** [sstr >> rv] for [double rv]: [rv] keeps its content when only
    whitespace is left; a field that is no number stores 0; a number
    above the range stores [DBL_MAX]. *)
Definition extract_double (rv : spec_float) (s : string) : spec_float :=
  match Stream.skipws s with
  | EmptyString => rv
  | s' =>
      match scan_float s' with
      | None => S754_zero false
      | Some (neg, m, x) =>
          let '(n, d) := scale 10 x m 1 in
          match nearest neg n d with
          | S754_infinity s => max_finite s
          | v => v
          end
      end
  end.

(** The [double] that the fraction [n / d] ([0 < d]) stands for in a
    program text. *)
Definition lit (n d : Z) : spec_float :=
  if n <? 0 then nearest true (- n) d else nearest false n d.

End Double.

#[global] Instance double_Streamable : Streamable spec_float :=
  {| extract := Double.extract_double; insert_ := Double.insert_double |}.

Section Convert.
Context {T : Type} `{Streamable T}.
(** The indeterminate content of the uninitialised local [rv]. *)
Variable rv : T.

(** Generic [TXmlConfig::convert<T>] *)
Definition convert (s : string) : T := extract rv s.

(** Generic [TXmlConfig::convertTo<T>] *)
Definition convertTo (v : T) : string := insert_ v.
End Convert.

(** [TXmlConfig::convert<std::string>]: the text itself. *)
Definition convert_string (str : string) : string := str.

(** [TXmlConfig::convert<bool>]; [rv] is the uninitialised local of the
    [convert<int>] it falls back to. *)
Definition convert_bool (rv : Z) (str : string) : bool :=
  if String.eqb str "false" then false
  else if String.eqb str "true" then true
  else (* fall back to an int cast *)
    negb (convert rv str =? 0)%Z.

(** ** Accessors

    [mNodes.at(path)] throws [std::out_of_range] for a missing key: a
    result of [None] below stands for that exception. *)

Definition at_ (m : gmap string string) (path : string) : option string :=
  m !! path.

Section Accessors.
Context {T : Type}.
(** The conversion of [T] in use: [convert<T>] and its specialisations. *)
Variable conv : string → T.

(** [TXmlConfig::get<T>] *)
Definition get (cfg : TXmlConfig) (path : string) (dv : T) : option T :=
  (* return default value if path DNE *)
  if negb (exists_ cfg path) then Some dv
  else
    let path := canonize path in
    conv <$> at_ (mNodes cfg) path.
End Accessors.

(** [TXmlConfig::get<std::string>]: no conversion. *)
Definition get_string (cfg : TXmlConfig) (path : string) (dv : string)
  : option string :=
  if negb (exists_ cfg path) then Some dv
  else
    let path := canonize path in
    at_ (mNodes cfg) path.

(** [TXmlConfig::get<bool>] and [get<int>]: the generic [get] at the
    conversion of the type. *)
Definition get_bool (rv : Z) := get (convert_bool rv).
Definition get_int (rv : Z) := get (convert (T:=Z) rv).

(** Generic [TXmlConfig::set<T>] *)
Definition set {T} `{Streamable T} (cfg : TXmlConfig) (path : string) (v : T)
  : TXmlConfig :=
  let path := canonize path in
  {| mErrorParsing := mErrorParsing cfg;
     mNodes := <[path := convertTo v]> (mNodes cfg) |}.

(** [TXmlConfig::set<std::string>] *)
Definition set_string (cfg : TXmlConfig) (path : string) (v : string)
  : TXmlConfig :=
  let path := canonize path in
  {| mErrorParsing := mErrorParsing cfg;
     mNodes := <[path := v]> (mNodes cfg) |}.

(** [TXmlConfig::set<bool>] *)
Definition set_bool (cfg : TXmlConfig) (path : string) (bv : bool)
  : TXmlConfig :=
  let path := canonize path in
  let v := "false" in
  let v := if bv then "true" else v in
  {| mErrorParsing := mErrorParsing cfg;
     mNodes := <[path := v]> (mNodes cfg) |}.

Definition set_int := set (T:=Z).

(** ** Vectors *)

(** [std::getline(ss, str, delim)] on a stream whose unread input is the
    non-empty [s]: the field read into [str] and the input left.  The
    delimiter is consumed and not stored. *)
Fixpoint getline (delim : ascii) (s : string) : string * string :=
  match s with
  | EmptyString => (EmptyString, EmptyString)
  | String c s' =>
      if Ascii.eqb c delim then (EmptyString, s')
      else let '(str, rest) := getline delim s' in (String c str, rest)
  end.

(** [while (std::getline(ss, str, ',')) elems.push_back(str);]
    A [getline] that finds no character to extract fails and ends the
    loop.  Every round consumes a character, so [fuel] above the length
    of the input is never used up. *)
Fixpoint split_loop (fuel : nat) (ss : string) (elems : list string)
  : list string :=
  match fuel with
  | 0 => elems
  | S fuel' =>
      match ss with
      | EmptyString => elems
      | _ => let '(str, ss') := getline "," ss in
             split_loop fuel' ss' (elems ++ [str])%list
      end
  end.

Definition split (val : string) : list string :=
  split_loop (S (String.length val)) val [].

Section Vectors.
Context {T : Type}.
Variable conv : string → T.

(** [TXmlConfig::getVector<T>] *)
Definition getVector (cfg : TXmlConfig) (path : string) (dv : list T)
  : option (list T) :=
  if negb (exists_ cfg path) then Some dv
  else
    let path := canonize path in
    val ← at_ (mNodes cfg) path;
    (* remove whitespace *)
    let val := Str.remove_space val in
    (* split the string by commas *)
    let elems := split val in
    (* for each element, convert to type T and push into vector *)
    Some (fold_left (λ result sv, (result ++ [conv sv])%list) elems []).
End Vectors.

(** ** Children *)

Definition is_attribute (str : string) : bool :=
  match Str.find attrDelim str with Some _ => true | None => false end.

(** [TXmlConfig::childrenOf] *)
Definition childrenOf (cfg : TXmlConfig) (path : string) : list string :=
  let path := canonize path in
  fold_left
    (λ result (kv : string * string),
       (* get the first n characters of this path *)
       let parent := Str.substr0 (String.length path) kv.1 in
       (* dont add self as a child *)
       if String.eqb parent kv.1 then result
       else if String.eqb parent path && negb (is_attribute kv.1)
            then (result ++ [kv.1])%list
            else result)
    (entries (mNodes cfg)) [].

(** ** The node tree of [TXMLEngine]

    The parser is ROOT's, not code of this class, which walks the tree
    through the accessors below.  A node has a name, a content (a null pointer when it has none), its
    attributes in order ([GetFirstAttr], [GetNextAttr]) and its children
    in order ([GetChild], [GetNext]); an attribute has a name and a value
    (a null pointer when it has none). *)

Record XMLAttr := mkAttr {
  GetAttrName : string;
  GetAttrValue : option string
}.

#[warnings="-register-all"]
Inductive XMLNode :=
  mkNode (name : string) (content : option string)
         (attrs : list XMLAttr) (children : list XMLNode).

Definition GetNodeName (n : XMLNode) : string :=
  let '(mkNode name _ _ _) := n in name.
Definition GetNodeContent (n : XMLNode) : option string :=
  let '(mkNode _ content _ _) := n in content.
Definition GetAttrs (n : XMLNode) : list XMLAttr :=
  let '(mkNode _ _ attrs _) := n in attrs.
Definition GetChildren (n : XMLNode) : list XMLNode :=
  let '(mkNode _ _ _ children) := n in children.

(** ** Flattening *)

(** [TString::Format("[%zu]", index)] *)
Definition index_suffix (index : nat) : string :=
  "[" ++ NilEmpty.string_of_uint (Nat.to_uint index) ++ "]".

(** The loop of [TXmlConfig::pathCount].  [index] is a [size_t]; it stays
    below the number of entries of the map plus two, so it never wraps,
    and [fuel] above the size of the map is never used up
    (see [pathCount_least]). *)
Fixpoint pathCount_loop (fuel : nat) (m : gmap string string)
    (path : string) (index : nat) : nat :=
  match fuel with
  | 0 => index
  | S fuel' =>
      if count m (path ++ index_suffix index) =? 0 then index
      else pathCount_loop fuel' m path (S index)
  end.

(** [TXmlConfig::pathCount] *)
Definition pathCount (m : gmap string string) (path : string) : nat :=
  pathCount_loop (S (size m)) m path 1.

(** The attribute loop of [mapFile]. *)
Definition mapAttrs (path : string) (attrs : list XMLAttr)
    (m : gmap string string) : gmap string string :=
  fold_left
    (λ m attr,
       let attr_name := GetAttrName attr in
       let attr_val := default valDNE (GetAttrValue attr) in
       <[path ++ attrDelim ++ attr_name := attr_val]> m)
    attrs m.

(** [TXmlConfig::mapFile]; [level] is an [Int_t], one more per level of
    the tree. *)
Fixpoint mapFile (node : XMLNode) (level : Z) (path : string)
    (m : gmap string string) : gmap string string :=
  match node with
  | mkNode name content attrs children =>
      (* add the path delimeter above top level *)
      let path := if String.eqb path "" then path else path ++ pathDelim in
      (* we skip the root node *)
      let path := if (1 <? level)%Z then path ++ name else path in
      let node_content := default valDNE content in
      (* be careful about repeated nodes *)
      let '(path, m) :=
        if count m path =? 0 then (path, <[path := node_content]> m)
        else
          let index := pathCount m path in
          let path := path ++ index_suffix index in
          (path, <[path := node_content]> m) in
      (* loop through attributes of this node *)
      let m := mapAttrs path attrs m in
      (* recursively get child nodes *)
      fold_left (λ m child, mapFile child (level + 1) path m) children m
  end.

(** ** Loading

    The XML parser is an external collaborator: [ParseString] and
    [ParseFile] give the root element of the document, or [None] when the
    document does not parse (a null [XMLDocPointer_t]). *)

Section Load.
Variables ParseString ParseFile : string → option XMLNode.

(** [TXmlConfig::load] *)
Definition load (cfg : TXmlConfig) (filename : string) (asString : bool)
  : TXmlConfig :=
  (* empty the map of mNodes *)
  let m : gmap string string := ∅ in
  let xmldoc :=
    if asString then ParseString filename else ParseFile filename in
  match xmldoc with
  | None => (* parse failed *)
      {| mErrorParsing := true; mNodes := m |}
  | Some root_node =>
      {| mErrorParsing := mErrorParsing cfg;
         mNodes := mapFile root_node 1 "" m |}
  end.

(** The document [load] gets from the parser. *)
Definition parse (filename : string) (asString : bool) : option XMLNode :=
  if asString then ParseString filename else ParseFile filename.

(** [TXmlConfig::TXmlConfig(std::string filename)] *)
Definition TXmlConfig_open (filename : string) : TXmlConfig :=
  load TXmlConfig_new filename false.
End Load.

(** [flatten]: the map [load] builds from a parsed document. *)
Definition flatten (root_node : XMLNode) : gmap string string :=
  mapFile root_node 1 "" ∅.

Definition ex_items : XMLNode :=
  mkNode "config" None []
    [ mkNode "Parent" None []
        [ mkNode "Item" (Some "a") [] [];
          mkNode "Item" (Some "b") [] [];
          mkNode "Item" (Some "c") [] [] ] ].

(** ** The rest of the class and its example *)

(** [std::endl] as a character. *)
Definition endl : string := String "010" EmptyString.

(** [TXmlConfig::dump]: the stream starts out empty and gets one
    [[key] = value] and a newline for every entry. *)
Definition dump (cfg : TXmlConfig) : string :=
  fold_left
    (λ sstr (kv : string * string),
       sstr ++ "[" ++ kv.1 ++ "] = " ++ kv.2 ++ endl)
    (entries (mNodes cfg)) "".

(** The arguments of a [new TH1F(name, title, nbinsx, xlow, xup)]; the
    histogram class is ROOT's.  [nbinsx] is the [double] handed over for
    the [Int_t] parameter. *)
Record TH1F := mkTH1F {
  GetName : string;
  GetTitle : string;
  nbinsx : spec_float;
  xlow : spec_float;
  xup : spec_float
}.

(** The specialisation [TXmlConfig::get<TH1*>] of the example.  A
    pointer is an [option], [None] for a null one.  [bins[i]] on a vector
    that is too short has no defined behaviour: the result is [None]
    then, and so it is when an [at] throws. [rv] is the uninitialised
    local of [convert<double>]. *)
Definition get_TH1 (rv : spec_float) (cfg : TXmlConfig) (p : string)
    (hDefault : option TH1F) : option (option TH1F) :=
  name ← get_string cfg (p ++ ":name") "hist_name";
  title ← get_string cfg (p ++ ":title") "title";
  bins ← getVector (convert rv) cfg (p ++ ":bins-x")
           [Double.lit 1 1; Double.lit 0 1; Double.lit 1 1];
  b0 ← bins !! 0%nat;
  b1 ← bins !! 1%nat;
  b2 ← bins !! 2%nat;
  Some (Some (mkTH1F name title b0 b1 b2)).

(** The loop of [example()]: the histograms it reports, in order; one
    whose [get<TH1*>] is undefined ends the list. *)
Fixpoint example_loop (rv : spec_float) (cfg : TXmlConfig)
    (paths : list string) : option (list TH1F) :=
  match paths with
  | [] => Some []
  | p :: paths' =>
      h ← get_TH1 rv cfg p None;
      rest ← example_loop rv cfg paths';
      match h with
      | None => Some rest   (* if (!h) continue; *)
      | Some h' => Some (h' :: rest)
      end
  end.

Definition example_hists (rv : spec_float) (cfg : TXmlConfig)
  : option (list TH1F) :=
  example_loop rv cfg (childrenOf cfg "Histograms").

(** ** Definitions used to state the properties *)

(** Some [double] values: 0, 0.5, 1.5, -2.25, 50, 0.1, 3.14159, 1e-05,
    1e+06 and 6.02214e+23. *)
Definition sample_doubles : list spec_float :=
  [ S754_zero false; Double.lit 1 2; Double.lit 3 2; Double.lit (-9) 4;
    Double.lit 50 1; Double.lit 1 10; Double.lit 314159 100000;
    Double.lit 1 100000; Double.lit 1000000 1;
    Double.lit (602214 * 10 ^ 18) 1 ].

(** A stand-in for the parser that knows one document. *)
Definition toy_parser (doc : string) : option XMLNode :=
  if String.eqb doc "<config a='1'>text</config>"
  then Some (mkNode "config" (Some "text") [mkAttr "a" (Some "1")] [])
  else None.

(** No character of [s] is a whitespace. *)
Fixpoint spaceless s : Prop :=
  match s with
  | EmptyString => True
  | String c s' => Str.isspace c = false ∧ spaceless s'
  end.

(** [c] occurs in [s]. *)
Fixpoint has_char (c : ascii) (s : string) : bool :=
  match s with
  | EmptyString => false
  | String a s' => Ascii.eqb a c || has_char c s'
  end.

(** The test [childrenOf] applies to a key [k] for the canonical query
    [q]. *)
Definition is_child (q k : string) : bool :=
  let parent := Str.substr0 (String.length q) k in
  negb (String.eqb parent k) &&
  (String.eqb parent q && negb (is_attribute k)).

(** Induction over a node tree, with the property at hand for all the
    children. *)
Fixpoint XMLNode_tree_ind (P : XMLNode → Prop)
    (H : ∀ name content attrs children,
           Forall P children → P (mkNode name content attrs children))
    (n : XMLNode) : P n :=
  match n with
  | mkNode name content attrs children =>
      H name content attrs children
        ((fix go (l : list XMLNode) : Forall P l :=
            match l with
            | [] => List.Forall_nil P
            | c :: l' =>
                List.Forall_cons P c l' (XMLNode_tree_ind P H c) (go l')
            end) children)
  end.

(** The path under which [mapFile] stores a node whose bare path is
    [path]. *)
Definition node_key (m : gmap string string) (path : string) : string :=
  if count m path =? 0 then path
  else path ++ index_suffix (pathCount m path).

Definition bare_path (level : Z) (parent name : string) : string :=
  let path := if String.eqb parent "" then parent else parent ++ pathDelim in
  if (1 <? level)%Z then path ++ name else path.

(** The rule as the specification words it: among the children of one
    node, the first one of a name is stored under the bare path and the
    one with [i] earlier siblings of its name, [i] from 1 on, under the
    bare path followed by [[i]]. *)
Definition sibling_key (parent : string) (level : Z) (name : string)
    (i : nat) : string :=
  let bare := bare_path level parent name in
  if i =? 0 then bare else bare ++ index_suffix i.

(** How many of the names [before] are [name]. *)
Definition occurrences (name : string) (before : list string) : nat :=
  List.length (filter (λ n, n = name) before).

(** The node entries the rule gives for a subtree whose top node has the
    key [key], in document order. *)
Fixpoint spec_nodes (key : string) (level : Z) (node : XMLNode)
  : list (string * string) :=
  match node with
  | mkNode name content attrs children =>
      (key, default valDNE content) ::
      (fix siblings (before : list string) (cs : list XMLNode) :=
         match cs with
         | [] => []
         | c :: cs' =>
             let n := GetNodeName c in
             let k := sibling_key key (level + 1) n (occurrences n before) in
             (spec_nodes k (level + 1) c ++ siblings (n :: before) cs')%list
         end) [] children
  end.

Definition spec_flatten (root_node : XMLNode) : list (string * string) :=
  spec_nodes "" 1 root_node.

(** The same for a list of siblings of which the ones named [before]
    have been stored. *)
Fixpoint spec_siblings (parent : string) (level : Z) (before : list string)
    (cs : list XMLNode) : list (string * string) :=
  match cs with
  | [] => []
  | c :: cs' =>
      let n := GetNodeName c in
      let k := sibling_key parent level n (occurrences n before) in
      (spec_nodes k level c ++ spec_siblings parent level (n :: before) cs')%list
  end.

(** A name that cannot be taken for a piece of path syntax: not empty and
    without [.], [:] and [[]. *)
Definition plain_name (n : string) : bool :=
  negb (String.eqb n "") && negb (has_char "." n) &&
  negb (has_char ":" n) && negb (has_char "[" n).

(** All nodes below the top one have plain names. *)
Fixpoint plain_below (node : XMLNode) : bool :=
  match node with
  | mkNode _ _ _ children =>
      forallb (λ c, plain_name (GetNodeName c) && plain_below c) children
  end.

(** The part of a child's path that comes from its parent. *)
Definition child_prefix (parent : string) : string :=
  if String.eqb parent "" then parent else parent ++ pathDelim.

(** The last segment of the path of a node named [n] with [i] earlier
    siblings of that name. *)
Definition segment (n : string) (i : nat) : string :=
  if i =? 0 then n else n ++ index_suffix i.

(** [m2] has the node entries of [m] and those of [new], and no other. *)
Definition extends (m m2 : gmap string string)
    (new : list (string * string)) : Prop :=
  ∀ k v, has_char ":" k = false →
    m2 !! k = Some v ↔ m !! k = Some v ∨ (k, v) ∈ new.

Definition ex_dotted : XMLNode :=
  mkNode "config" None []
    [ mkNode "b.c" (Some "z") [] [];
      mkNode "b" None []
        [ mkNode "c" (Some "x") [] [];
          mkNode "c" (Some "y") [] [] ] ].

(** What the flattening of one node does, given the entries of its
    earlier siblings of the same name. *)
Definition node_refines (c : XMLNode) : Prop :=
  ∀ level P m i,
    (1 < level)%Z → has_char ":" P = false →
    plain_name (GetNodeName c) = true → plain_below c = true →
    (∀ j, is_Some (m !! sibling_key P level (GetNodeName c) j) ↔ j < i) →
    (∀ rest, has_char ":" rest = false →
       m !! (sibling_key P level (GetNodeName c) i ++ "." ++ rest) = None) →
    extends m (mapFile c level P m)
      (spec_nodes (sibling_key P level (GetNodeName c) i) level c).

(** The last character of [s] is a comma. *)
Fixpoint ends_with_comma (s : string) : bool :=
  match s with
  | EmptyString => false
  | String c EmptyString => Ascii.eqb c ","
  | String _ s' => ends_with_comma s'
  end.

(** How many characters of [s] are [c]. *)
Fixpoint count_char (c : ascii) (s : string) : nat :=
  match s with
  | EmptyString => 0
  | String a s' => (if Ascii.eqb a c then 1 else 0) + count_char c s'
  end.

(** The number of elements of a subtree, and of their attributes. *)
Fixpoint count_nodes (node : XMLNode) : nat :=
  match node with
  | mkNode _ _ _ children => S (list_sum (map count_nodes children))
  end.

Fixpoint count_attrs (node : XMLNode) : nat :=
  match node with
  | mkNode _ _ attrs children =>
      List.length attrs + list_sum (map count_attrs children)
  end.

(** No element below the top one has a [:] in its name. *)
Fixpoint colon_free_below (node : XMLNode) : bool :=
  match node with
  | mkNode _ _ _ children =>
      forallb (λ c, negb (has_char ":" (GetNodeName c)) && colon_free_below c)
        children
  end.

(** The attributes of every element differ in their names, as XML asks. *)
Fixpoint distinct_attrs (node : XMLNode) : bool :=
  match node with
  | mkNode _ _ attrs children =>
      bool_decide (NoDup (GetAttrName <$> attrs)) &&
      forallb distinct_attrs children
  end.

(** Every attribute entry of [m] belongs to a node entry of [m]. *)
Definition attrs_owned (m : gmap string string) : Prop :=
  ∀ P a, has_char ":" P = false →
    is_Some (m !! (P ++ attrDelim ++ a)) → is_Some (m !! P).

(** The entries of the attributes of a node stored under [key]. *)
Definition attr_entries (key : string) (attrs : list XMLAttr)
  : list (string * string) :=
  (λ a, (key ++ attrDelim ++ GetAttrName a, default valDNE (GetAttrValue a)))
    <$> attrs.

(** All the entries the rule gives for a subtree whose top node has the
    key [key]: for every node its own and those of its attributes. *)
Fixpoint spec_entries (key : string) (level : Z) (node : XMLNode)
  : list (string * string) :=
  match node with
  | mkNode name content attrs children =>
      (key, default valDNE content) ::
      (attr_entries key attrs ++
       (fix siblings (before : list string) (cs : list XMLNode) :=
          match cs with
          | [] => []
          | c :: cs' =>
              let n := GetNodeName c in
              let k := sibling_key key (level + 1) n (occurrences n before) in
              (spec_entries k (level + 1) c ++ siblings (n :: before) cs')%list
          end) [] children)%list
  end.

Fixpoint spec_entry_siblings (parent : string) (level : Z)
    (before : list string) (cs : list XMLNode) : list (string * string) :=
  match cs with
  | [] => []
  | c :: cs' =>
      let n := GetNodeName c in
      let k := sibling_key parent level n (occurrences n before) in
      (spec_entries k level c
         ++ spec_entry_siblings parent level (n :: before) cs')%list
  end.

(** [m2] has the entries of [m] and those of [new], and no other. *)
Definition adds (m m2 : gmap string string) (new : list (string * string))
  : Prop :=
  ∀ k v, m2 !! k = Some v ↔ m !! k = Some v ∨ (k, v) ∈ new.

(** The two characters that join a key to what lies below it. *)
Definition is_delim (d : ascii) : bool := Ascii.eqb d "." || Ascii.eqb d ":".

(** What the flattening of one node adds, given the entries of its
    earlier siblings of the same name. *)
Definition node_adds (c : XMLNode) : Prop :=
  ∀ level P m i,
    (1 < level)%Z →
    plain_name (GetNodeName c) = true → plain_below c = true →
    distinct_attrs c = true →
    (∀ j, is_Some (m !! sibling_key P level (GetNodeName c) j) ↔ j < i) →
    (∀ d rest, is_delim d = true →
       m !! (sibling_key P level (GetNodeName c) i ++ String d rest) = None) →
    adds m (mapFile c level P m)
      (spec_entries (sibling_key P level (GetNodeName c) i) level c).

(** A document with attributes and a repeated element. *)
Definition ex_histograms : XMLNode :=
  mkNode "config" None [mkAttr "version" (Some "1")]
    [ mkNode "Level0" None
        [mkAttr "attr1" (Some "1"); mkAttr "attr3" (Some "true")] [];
      mkNode "Histograms" None []
        [ mkNode "Histogram" None
            [ mkAttr "name" (Some "h1"); mkAttr "title" (Some "first");
              mkAttr "bins-x" (Some "50, 0, 1") ] [];
          mkNode "Histogram" None [mkAttr "name" (Some "h2")] [] ] ].

(** A text [canonize] leaves as it is. *)
Definition tidy (s : string) : bool := String.eqb (canonize s) s.

(** The names of the elements below the top one and of all attributes
    are left alone by [canonize]. *)
Fixpoint tidy_below (node : XMLNode) : bool :=
  match node with
  | mkNode _ _ attrs children =>
      forallb (λ a, tidy (GetAttrName a)) attrs &&
      forallb (λ c, tidy (GetNodeName c) && tidy_below c) children
  end.

(** A key without white space and without [[0]]. *)
Definition clean (k : string) : Prop :=
  spaceless k ∧ Str.find "[0]" k = None.

(** One line of [dump]. *)
Definition dump_line (kv : string * string) : string :=
  "[" ++ kv.1 ++ "] = " ++ kv.2 ++ endl.

(** * Properties *)

(** ** Strings *)

#[local] Arguments String.append !_ _ / : simpl nomatch.
#[local] Arguments Ascii.eqb : simpl never.

Section StringFacts.
Implicit Types s t pat : string.
Implicit Types c : ascii.

Lemma sapp_nil_r s : s ++ "" = s.
Proof. induction s as [|c s IH]; simpl; [done | by rewrite IH]. Qed.

Lemma sapp_assoc s t u : (s ++ t) ++ u = s ++ (t ++ u).
Proof. induction s as [|c s IH]; simpl; [done | by rewrite IH]. Qed.

Lemma sapp_length s t :
  String.length (s ++ t) = String.length s + String.length t.
Proof. induction s as [|c s IH]; simpl; [done | by rewrite IH]. Qed.

Lemma sapp_inv_tail s t u : s ++ u = t ++ u → s = t.
Proof.
  revert t; induction s as [|c s IH]; intros [|d t] E; simpl in *.
  - done.
  - apply (f_equal String.length) in E. simpl in E.
    rewrite sapp_length in E. lia.
  - apply (f_equal String.length) in E. simpl in E.
    rewrite sapp_length in E. lia.
  - injection E as -> E. f_equal. by apply IH.
Qed.

Lemma remove_space_spaceless s : spaceless (Str.remove_space s).
Proof.
  induction s as [|c s IH]; simpl; [done|].
  destruct (Str.isspace c) eqn:E; simpl; auto.
Qed.

Lemma remove_space_id s : spaceless s → Str.remove_space s = s.
Proof.
  induction s as [|c s IH]; simpl; [done|].
  intros [-> Hs]. by rewrite IH.
Qed.

Lemma remove_space_app s t :
  Str.remove_space (s ++ t) = Str.remove_space s ++ Str.remove_space t.
Proof.
  induction s as [|c s IH]; simpl; [done|].
  destruct (Str.isspace c); simpl; by rewrite IH.
Qed.

Lemma drop_spaceless n s : spaceless s → spaceless (Str.drop n s).
Proof.
  revert s; induction n as [|n IH]; intros [|c s]; simpl; try done.
  intros [_ Hs]. by apply IH.
Qed.

Lemma erase_spaceless pos len s :
  spaceless s → spaceless (Str.erase pos len s).
Proof.
  revert s; induction pos as [|pos IH]; intros s Hs.
  - destruct s; by apply drop_spaceless.
  - destruct s as [|c s]; simpl; [done|].
    destruct Hs as [Hc Hs]. split; [done | by apply IH].
Qed.

Lemma erase_0_0 s : Str.erase 0 0 s = s.
Proof. by destruct s. Qed.

Lemma drop_length n s :
  String.length (Str.drop n s) = String.length s - n.
Proof.
  revert s; induction n as [|n IH]; intros [|c s]; simpl; done.
Qed.

Lemma erase_length pos len s :
  pos + len ≤ String.length s →
  String.length (Str.erase pos len s) = String.length s - len.
Proof.
  revert s; induction pos as [|pos IH]; intros s Hle.
  - destruct s; simpl; apply drop_length.
  - destruct s as [|c s]; simpl in *; [lia|].
    rewrite IH by lia. lia.
Qed.

Lemma starts_with_length pat s :
  Str.starts_with pat s = true → String.length pat ≤ String.length s.
Proof.
  revert s; induction pat as [|a pat IH]; intros [|b s]; simpl;
    try done; try lia.
  destruct (Ascii.eqb a b); [|done]. intros H%IH. lia.
Qed.

Lemma starts_with_app pat s : Str.starts_with pat (pat ++ s) = true.
Proof.
  induction pat as [|a pat IH]; simpl; [done|].
  by rewrite Ascii.eqb_refl.
Qed.

Lemma starts_with_spec pat s :
  Str.starts_with pat s = true ↔ ∃ t, s = pat ++ t.
Proof.
  split.
  - revert s; induction pat as [|a pat IH]; intros s; simpl.
    + eauto.
    + destruct s as [|b s]; [done|].
      destruct (Ascii.eqb_spec a b) as [->|]; [|done].
      intros [t ->]%IH. eauto.
  - intros [t ->]. apply starts_with_app.
Qed.

Lemma find_Some_length pat s pos :
  Str.find pat s = Some pos → pos + String.length pat ≤ String.length s.
Proof.
  revert pos; induction s as [|c s IH]; intros pos; simpl.
  - destruct (Str.starts_with pat "") eqn:E; [|done].
    intros [= <-]. by apply starts_with_length in E.
  - destruct (Str.starts_with pat (String c s)) eqn:E.
    + intros [= <-]. by apply starts_with_length in E.
    + destruct (Str.find pat s) as [q|]; [|done].
      intros [= <-]. specialize (IH q eq_refl). lia.
Qed.

Lemma find_starts_with pat s :
  Str.starts_with pat s = true → Str.find pat s = Some 0.
Proof. intros E. destruct s; simpl; by rewrite E. Qed.

Lemma erase_app a len b :
  Str.erase (String.length a) len (a ++ b) = a ++ Str.drop len b.
Proof.
  induction a as [|c a IH]; simpl.
  - by destruct b.
  - by rewrite IH.
Qed.

End StringFacts.

(** ** Canonical paths *)

Example canonize_example :
  canonize " Level0 . Level1[0] :name" = "Level0.Level1:name".
Proof. reflexivity. Qed.

Lemma canonize_spaceless p : spaceless (canonize p).
Proof. apply erase_spaceless, remove_space_spaceless. Qed.

Lemma canonize_unfold_spaceless s :
  spaceless s →
  canonize s =
    match Str.find "[0]" s with
    | Some pos => Str.erase pos 3 s
    | None => s
    end.
Proof.
  intros Hs. unfold canonize. rewrite (remove_space_id s Hs).
  destruct (Str.find "[0]" s); [done | apply erase_0_0].
Qed.

Lemma starts_with_zero_snoc t :
  Str.starts_with "[0]" (t ++ "[0]") = true →
  Str.starts_with "[0]" t = true ∨ t = "".
Proof.
  destruct t as [|c1 [|c2 [|c3 t]]]; simpl; auto.
Qed.

Lemma find_zero_snoc s :
  Str.find "[0]" s = None →
  Str.find "[0]" (s ++ "[0]") = Some (String.length s).
Proof.
  induction s as [|c s IH]; [done|].
  intros Hf. change (String c s ++ "[0]") with (String c (s ++ "[0]")).
  cbn [Str.find] in *.
  destruct (Str.starts_with "[0]" (String c s)) eqn:E1; [done|].
  destruct (Str.starts_with "[0]" (String c (s ++ "[0]"))) eqn:E2.
  - apply (starts_with_zero_snoc (String c s)) in E2 as [E2|E2];
      congruence.
  - destruct (Str.find "[0]" s); [done|]. by rewrite IH.
Qed.

(** C2, as the code has it: a second canonicalisation changes nothing
    exactly when the first one left no [[0]] behind. [canonize] removes
    one occurrence of [[0]] per call. *)
Theorem canonize_idempotent_iff (p : string) :
  canonize (canonize p) = canonize p ↔
  Str.find "[0]" (canonize p) = None.
Proof.
  rewrite (canonize_unfold_spaceless (canonize p)) by apply canonize_spaceless.
  destruct (Str.find "[0]" (canonize p)) as [pos|] eqn:Hf; [|done].
  split; [|done]. intros E. exfalso.
  apply find_Some_length in Hf. simpl in Hf.
  apply (f_equal String.length) in E.
  rewrite erase_length in E by done. lia.
Qed.

(** C2, counterexample: a path with two zero indices. *)
Lemma canonize_not_idempotent :
  canonize (canonize "a[0].b[0]") ≠ canonize "a[0].b[0]".
Proof. vm_compute. discriminate. Qed.

(** C3: a bare path (one in which no [[0]] occurs) and the same path
    with an explicit zero index appended canonicalise to the same
    string. *)
Theorem canonize_zero_index (p : string) :
  Str.find "[0]" (Str.remove_space p) = None →
  canonize (p ++ "[0]") = canonize p.
Proof.
  intros Hf. unfold canonize.
  rewrite remove_space_app. change (Str.remove_space "[0]") with "[0]".
  rewrite (find_zero_snoc _ Hf), Hf, erase_app, erase_0_0.
  apply sapp_nil_r.
Qed.

Lemma canonize_zero_index_witness :
  Str.find "[0]" (Str.remove_space "Level0.Level1 :name") = None ∧
  canonize ("Level0.Level1 :name" ++ "[0]") = canonize "Level0.Level1 :name".
Proof.
  split; [reflexivity | apply canonize_zero_index; reflexivity].
Defined.

(** ** Existence and text access *)

Lemma exists_lookup cfg p :
  exists_ cfg p = true ↔ is_Some (mNodes cfg !! canonize p).
Proof.
  unfold exists_, count.
  destruct (mNodes cfg !! canonize p); simpl.
  - split; eauto.
  - split; [done | by intros [? ?]].
Qed.

Lemma exists_false_lookup cfg p :
  exists_ cfg p = false ↔ mNodes cfg !! canonize p = None.
Proof.
  unfold exists_, count.
  destruct (mNodes cfg !! canonize p); simpl; split; eauto; done.
Qed.

(** C4: [get<std::string>] gives back the default when the path does not
    exist and the stored text itself when it does; it never throws. *)
Theorem get_string_spec (cfg : TXmlConfig) (p t : string) :
  (exists_ cfg p = false → get_string cfg p t = Some t) ∧
  (exists_ cfg p = true →
     ∃ v, mNodes cfg !! canonize p = Some v ∧ get_string cfg p t = Some v).
Proof.
  unfold get_string, at_. split; intros E; rewrite E; simpl; [done|].
  apply exists_lookup in E as [v Hv]. eauto.
Qed.

Lemma get_string_spec_witness :
  let cfg := set_string TXmlConfig_new "Level0 :name" "first" in
  (exists_ cfg "Level0.Level1" = false ∧
   get_string cfg "Level0.Level1" "NA" = Some "NA") ∧
  (exists_ cfg "Level0[0]:name" = true ∧
   ∃ v, mNodes cfg !! canonize "Level0[0]:name" = Some v ∧
        get_string cfg "Level0[0]:name" "NA" = Some v).
Proof.
  intros cfg. split.
  - split; [reflexivity|].
    apply (proj1 (get_string_spec cfg "Level0.Level1" "NA")). reflexivity.
  - split; [reflexivity|].
    apply (proj2 (get_string_spec cfg "Level0[0]:name" "NA")). reflexivity.
Defined.

(** ** Boolean conversion *)

(** C5: ["true"] and ["false"] are recognised by exact comparison; every
    other text goes through [convert<int>] and is true when that is not
    zero. *)
Theorem convert_bool_spec :
  (∀ rv, convert_bool rv "true" = true) ∧
  (∀ rv, convert_bool rv "false" = false) ∧
  (∀ rv s, s ≠ "true" → s ≠ "false" →
     convert_bool rv s = negb (convert (T:=Z) rv s =? 0)%Z) ∧
  (∀ rv, convert_bool rv "1" = true ∧ convert_bool rv "0" = false) ∧
  (∀ rv, convert_bool rv "True" = false ∧ convert_bool rv "TRUE" = false ∧
         convert_bool rv "true " = false ∧ convert_bool rv "False" = false).
Proof.
  repeat split; try reflexivity.
  intros rv s Ht Hf. unfold convert_bool.
  apply String.eqb_neq in Ht, Hf. by rewrite Ht, Hf.
Qed.

Lemma convert_bool_spec_witness :
  convert_bool 7 "12" = negb (convert (T:=Z) 7 "12" =? 0)%Z.
Proof.
  apply (proj1 (proj2 (proj2 convert_bool_spec))); discriminate.
Defined.

(** ** Integers through the stream *)

Section IntStream.
Import DecimalPos.Unsigned.

Lemma digits_string_of_uint d d' seen :
  d ≠ Decimal.Nil ∨ seen = true →
  Stream.digits (NilEmpty.string_of_uint d) (Z.of_N (of_lu d')) seen =
    Some (Z.of_N (of_lu (Decimal.revapp d d'))).
Proof.
  revert d' seen.
  induction d as [|d IH|d IH|d IH|d IH|d IH|d IH|d IH|d IH|d IH|d IH];
    intros d' seen Hd.
  - destruct Hd as [?| ->]; done.
  - simpl. rewrite <- (IH _ true) by auto. f_equal. simpl of_lu. lia.
  - simpl. rewrite <- (IH _ true) by auto. f_equal. simpl of_lu. lia.
  - simpl. rewrite <- (IH _ true) by auto. f_equal. simpl of_lu. lia.
  - simpl. rewrite <- (IH _ true) by auto. f_equal. simpl of_lu. lia.
  - simpl. rewrite <- (IH _ true) by auto. f_equal. simpl of_lu. lia.
  - simpl. rewrite <- (IH _ true) by auto. f_equal. simpl of_lu. lia.
  - simpl. rewrite <- (IH _ true) by auto. f_equal. simpl of_lu. lia.
  - simpl. rewrite <- (IH _ true) by auto. f_equal. simpl of_lu. lia.
  - simpl. rewrite <- (IH _ true) by auto. f_equal. simpl of_lu. lia.
  - simpl. rewrite <- (IH _ true) by auto. f_equal. simpl of_lu. lia.
Qed.

Lemma digits_to_uint p seen :
  Stream.digits (NilEmpty.string_of_uint (Pos.to_uint p)) 0 seen =
    Some (Z.pos p).
Proof.
  assert (Hn : Pos.to_uint p ≠ Decimal.Nil).
  { intros E. pose proof (DecimalPos.Unsigned.of_to p) as H.
    rewrite E in H. discriminate. }
  change 0%Z with (Z.of_N (of_lu Decimal.Nil)).
  rewrite digits_string_of_uint by auto.
  change (Decimal.revapp ?d Decimal.Nil) with (Decimal.rev d).
  by rewrite <- of_uint_alt, DecimalPos.Unsigned.of_to.
Qed.

Lemma string_of_uint_head d :
  d ≠ Decimal.Nil →
  ∃ c s, NilEmpty.string_of_uint d = String c s ∧
         Str.isspace c = false ∧ c ≠ "-"%char ∧ c ≠ "+"%char.
Proof. destruct d; [done|..]; intros _; eexists _, _; by repeat split. Qed.

(** Reading back what the stream wrote for [v] gives [v], clamped to
    the range of [int]. *)
Lemma extract_insert_int rv v :
  Stream.extract_int rv (Stream.insert_int v) = Stream.clamp v.
Proof.
  unfold Stream.insert_int, Stream.extract_int.
  destruct v as [|p|p]; [done| |]; simpl Z.to_int;
    (assert (Hn : Pos.to_uint p ≠ Decimal.Nil);
     [ intros E; pose proof (DecimalPos.Unsigned.of_to p) as H;
       rewrite E in H; discriminate |]).
  - unfold NilZero.string_of_int, NilZero.string_of_uint.
    pose proof (digits_to_uint p false) as Hd.
    destruct (string_of_uint_head _ Hn) as (c & s & E & Hc & Hm & Hp).
    destruct (Pos.to_uint p) eqn:Ep; [done|..];
      rewrite E in *; simpl; rewrite Hc; unfold Stream.scan_integer;
      (destruct (Ascii.eqb_spec c "-") as [|_]; [done|]);
      (destruct (Ascii.eqb_spec c "+") as [|_]; [done|]);
      injection E as <- <-; simpl in *; by rewrite Hd.
  - unfold NilZero.string_of_int, NilZero.string_of_uint.
    pose proof (digits_to_uint p false) as Hd.
    destruct (Pos.to_uint p) eqn:Ep; [done|..];
      simpl; simpl in Hd; by rewrite Hd.
Qed.

Lemma convert_convertTo_int rv v :
  (Stream.INT_MIN ≤ v ≤ Stream.INT_MAX)%Z →
  convert (T:=Z) rv (convertTo v) = v.
Proof.
  intros Hv. unfold convert, convertTo. simpl.
  rewrite extract_insert_int. unfold Stream.clamp.
  destruct (Z.ltb_spec v Stream.INT_MIN); [lia|].
  destruct (Z.ltb_spec Stream.INT_MAX v); [lia|done].
Qed.
End IntStream.

(** ** Writing and reading back *)

Lemma get_insert {T} (conv : string → T) e m p text d :
  get conv {| mErrorParsing := e; mNodes := <[canonize p := text]> m |} p d
  = Some (conv text).
Proof.
  unfold get, exists_, count, at_. simpl. by rewrite lookup_insert_eq.
Qed.

(** What the stream conversion of [T] does to [v] is all that stands
    between [set<T>] and [get<T>]. *)
Lemma get_set {T} `{Streamable T} (rv : T) cfg p (v d : T) :
  get (convert rv) (set cfg p v) p d = Some (convert rv (convertTo v)).
Proof. apply get_insert. Qed.

(** The sample values are binary64 numbers, and the stream writes them
    as expected. *)
Lemma sample_doubles_text :
  Forall (λ v, valid_binary 53 1024 v = true) sample_doubles ∧
  convertTo <$> sample_doubles =
    ["0"; "0.5"; "1.5"; "-2.25"; "50"; "0.1"; "3.14159"; "1e-05"; "1e+06";
     "6.02214e+23"].
Proof. split; [|by vm_compute]. repeat constructor. Qed.

(** The stream keeps six digits of a [double]: a third comes back as
    0.333333. *)
Lemma double_third_text rv :
  convertTo (Double.lit 1 3) = "0.333333" ∧
  convert rv (convertTo (Double.lit 1 3)) = Double.lit 333333 1000000 ∧
  Double.lit 333333 1000000 ≠ Double.lit 1 3.
Proof. by vm_compute. Qed.

(** C6: [set] then [get] on the same path gives the value back: every
    text, both booleans (written as ["true"] and ["false"]), every [int],
    the sample [double] values, and for any streamed type every value
    that the stream itself writes and reads back unchanged. *)
Theorem set_get_roundtrip :
  (∀ cfg p (v d : string), get_string (set_string cfg p v) p d = Some v) ∧
  (∀ rv cfg p (v d : bool),
     get_bool rv (set_bool cfg p v) p d = Some v ∧
     mNodes (set_bool cfg p v) !! canonize p
       = Some (if v then "true" else "false")) ∧
  (∀ rv cfg p (v d : Z),
     (Stream.INT_MIN ≤ v ≤ Stream.INT_MAX)%Z →
     get_int rv (set_int cfg p v) p d = Some v) ∧
  (∀ rv cfg p (d : spec_float),
     Forall (λ v, get (convert rv) (set cfg p v) p d = Some v)
       sample_doubles) ∧
  (∀ (T : Type) (S : Streamable T) (rv : T) cfg p (v d : T),
     convert rv (convertTo v) = v →
     get (convert rv) (set cfg p v) p d = Some v).
Proof.
  split; [|split; [|split; [|split]]].
  - intros cfg p v d. unfold get_string, set_string, exists_, count, at_.
    simpl. by rewrite lookup_insert_eq.
  - intros rv cfg p v d. split.
    + unfold get_bool, set_bool. rewrite get_insert. by destruct v.
    + unfold set_bool. simpl. rewrite lookup_insert_eq. by destruct v.
  - intros rv cfg p v d Hv. unfold get_int, set_int.
    by rewrite get_set, convert_convertTo_int.
  - intros rv cfg p d.
    repeat constructor; rewrite get_set; f_equal; by vm_compute.
  - intros T S rv cfg p v d Hv. by rewrite get_set, Hv.
Qed.

Lemma set_get_roundtrip_witness :
  get_int 0%Z (set_int TXmlConfig_new "Level0:attr1" (-2147483648)%Z)
    "Level0:attr1" 0%Z = Some (-2147483648)%Z ∧
  get (convert (T:=Z) 0%Z) (set TXmlConfig_new "Level0:attr1" 50%Z)
    "Level0:attr1" 0%Z = Some 50%Z.
Proof.
  split.
  - apply (proj1 (proj2 (proj2 set_get_roundtrip))). by vm_compute.
  - apply (proj2 (proj2 (proj2 (proj2 set_get_roundtrip)))). reflexivity.
Defined.

(** ** Splitting at commas *)

Lemma getline_snd_length delim c s :
  String.length (getline delim (String c s)).2 ≤ String.length s.
Proof.
  revert c; induction s as [|a s IH]; intros c; simpl.
  - by destruct (Ascii.eqb c delim).
  - destruct (Ascii.eqb c delim); simpl; [done|].
    specialize (IH a). simpl in IH.
    destruct (Ascii.eqb a delim); simpl in *; [lia|].
    destruct (getline delim s); simpl in *. lia.
Qed.

Lemma getline_field delim f rest :
  has_char delim f = false →
  getline delim (f ++ String delim rest) = (f, rest).
Proof.
  induction f as [|c f IH]; simpl.
  - by rewrite Ascii.eqb_refl.
  - destruct (Ascii.eqb c delim); [done|]. simpl. intros Hf.
    by rewrite IH.
Qed.

Lemma getline_last delim f :
  has_char delim f = false → getline delim f = (f, "").
Proof.
  induction f as [|c f IH]; simpl; [done|].
  destruct (Ascii.eqb c delim); [done|]. simpl. intros Hf.
  by rewrite IH.
Qed.

Lemma split_loop_acc fuel ss (e1 e2 : list string) :
  split_loop fuel ss (e1 ++ e2)%list = (e1 ++ split_loop fuel ss e2)%list.
Proof.
  revert ss e2; induction fuel as [|fuel IH]; intros ss e2; simpl; [done|].
  destruct ss as [|c ss]; [done|].
  destruct (getline "," (String c ss)) as [str rest].
  by rewrite <- IH, <- (assoc_L (++)%list).
Qed.

Lemma split_loop_nil fuel ss (elems : list string) :
  split_loop fuel ss elems = (elems ++ split_loop fuel ss [])%list.
Proof. by rewrite <- split_loop_acc, (right_id_L [] (++)%list). Qed.

(** The fuel of [split] is never used up: more fuel gives the same
    fields. *)
Lemma split_loop_fuel fuel1 fuel2 ss elems :
  String.length ss < fuel1 → String.length ss < fuel2 →
  split_loop fuel1 ss elems = split_loop fuel2 ss elems.
Proof.
  revert fuel2 ss elems; induction fuel1 as [|fuel1 IH];
    intros [|fuel2] ss elems H1 H2; try lia.
  simpl. destruct ss as [|c ss]; [done|].
  pose proof (getline_snd_length "," c ss) as Hl.
  destruct (getline "," (String c ss)) as [str rest]. simpl in *.
  apply IH; lia.
Qed.

Lemma split_loop_S fuel c ss elems :
  split_loop (S fuel) (String c ss) elems =
  split_loop fuel (getline "," (String c ss)).2
    (elems ++ [(getline "," (String c ss)).1])%list.
Proof. cbn [split_loop]. by destruct (getline "," (String c ss)). Qed.

Lemma split_step ss :
  ss ≠ "" →
  split ss = ((getline "," ss).1 :: split (getline "," ss).2)%list.
Proof.
  destruct ss as [|c ss]; [done|]. intros _.
  unfold split at 1. rewrite split_loop_S, split_loop_nil.
  pose proof (getline_snd_length "," c ss) as Hl.
  destruct (getline "," (String c ss)) as [str rest]. cbn [fst snd] in *.
  change (str :: split_loop (String.length (String c ss)) rest []
          = str :: split rest)%list.
  f_equal. apply split_loop_fuel; simpl; lia.
Qed.

Lemma split_field f rest :
  has_char "," f = false →
  split (f ++ String "," rest) = (f :: split rest)%list.
Proof.
  intros Hf. rewrite split_step, getline_field by (done || by destruct f).
  done.
Qed.

Lemma split_last f :
  has_char "," f = false → f ≠ "" → split f = [f].
Proof.
  intros Hf Hn. by rewrite split_step, getline_last.
Qed.

Lemma fold_left_push {A B} (f : A → B) (l : list A) (acc : list B) :
  fold_left (λ result x, (result ++ [f x])%list) l acc = (acc ++ (f <$> l))%list.
Proof.
  revert acc; induction l as [|x l IH]; intros acc; simpl.
  - by rewrite (right_id_L [] (++)%list).
  - by rewrite IH, <- (assoc_L (++)%list).
Qed.

(** The whitespace characters are the six of the "C" locale, and removing
    them keeps every other character, in order. *)
Lemma isspace_chars c :
  Str.isspace c =
  existsb (Ascii.eqb c) [" "; "009"; "010"; "011"; "012"; "013"]%char.
Proof. by destruct c as [[] [] [] [] [] [] [] []]. Qed.

Lemma remove_space_filter s :
  Str.remove_space s =
  string_of_list_ascii
    (filter (λ c, Str.isspace c = false) (list_ascii_of_string s)).
Proof.
  induction s as [|c s IH]; [done|].
  cbn [Str.remove_space list_ascii_of_string]. rewrite filter_cons.
  destruct (Str.isspace c) eqn:E.
  - by rewrite decide_False by done.
  - rewrite decide_True by done. cbn [string_of_list_ascii]. by rewrite IH.
Qed.

(** C7: [getVector<T>] gives back the default when the path does not
    exist; otherwise it converts, in order, the fields of the stored text
    with its whitespace removed.  The fields are the texts between the
    commas: a field ends at the next comma, two commas in a row enclose
    an empty field, and what follows the last comma is a field unless it
    is empty.  Removing the whitespace takes out every space, tab,
    newline, vertical tab, form feed and carriage return, wherever it
    stands, and nothing else: [1 2,3] read as [int] is 12 and 3, and
    blanks between two commas leave an empty field. *)
Theorem getVector_spec :
  (∀ T (conv : string → T) cfg p dv,
     exists_ cfg p = false → getVector conv cfg p dv = Some dv) ∧
  (∀ T (conv : string → T) cfg p dv,
     exists_ cfg p = true →
     ∃ val, mNodes cfg !! canonize p = Some val ∧
            getVector conv cfg p dv
            = Some (conv <$> split (Str.remove_space val))) ∧
  (split "" = [] ∧
   (∀ f rest, has_char "," f = false →
      split (f ++ String "," rest) = (f :: split rest)%list) ∧
   (∀ rest, split (String "," rest) = ("" :: split rest)%list) ∧
   (∀ f, has_char "," f = false → f ≠ "" → split f = [f])) ∧
  (∀ rv cfg p,
     mNodes cfg !! canonize p = Some "50, 0, 1" →
     getVector (convert (T:=Z) rv) cfg p [] = Some [50; 0; 1]%Z) ∧
  ((∀ c, Str.isspace c =
         existsb (Ascii.eqb c) [" "; "009"; "010"; "011"; "012"; "013"]%char) ∧
   (∀ val, Str.remove_space val =
           string_of_list_ascii
             (filter (λ c, Str.isspace c = false) (list_ascii_of_string val))) ∧
   (∀ T (conv : string → T) cfg p dv val,
      mNodes cfg !! canonize p = Some val →
      ∃ fields,
        getVector conv cfg p dv = Some (conv <$> fields) ∧
        fields = split (Str.remove_space val) ∧
        Forall (λ f, spaceless f ∧ has_char "," f = false) fields)) ∧
  (∀ rv cfg p,
     mNodes cfg !! canonize p = Some "1 2,3" →
     getVector (convert (T:=Z) rv) cfg p [] = Some [12; 3]%Z) ∧
  (∀ cfg p dv,
     mNodes cfg !! canonize p
       = Some (" a b ," ++ String "009" ("c" ++ String "010" ", ,d ")) →
     getVector (λ sv, sv) cfg p dv = Some ["ab"; "c"; ""; "d"]).
Proof.
  assert (Hex : ∀ T (conv : string → T) cfg p dv val,
    mNodes cfg !! canonize p = Some val →
    getVector conv cfg p dv = Some (conv <$> split (Str.remove_space val))).
  { intros T conv cfg p dv val Hv.
    unfold getVector, exists_, count, at_. rewrite Hv. simpl.
    by rewrite fold_left_push. }
  assert (Hfields : ∀ s, spaceless s →
            Forall (λ f, spaceless f ∧ has_char "," f = false) (split s)).
  { intros s. remember (String.length s) as n eqn:Hn.
    revert s Hn. induction (lt_wf n) as [n _ IH]. intros s -> Hs.
    destruct (has_char "," s) eqn:Hc.
    - assert (Hsplit : ∃ f rest, s = f ++ String "," rest ∧
                                 has_char "," f = false).
      { clear IH Hs. induction s as [|a s IHs]; [done|]. simpl in Hc.
        destruct (Ascii.eqb_spec a ",") as [->|Hne].
        - by exists "", s.
        - destruct (IHs Hc) as (f & rest & -> & Hf). exists (String a f), rest.
          split; [done|]. simpl. apply Ascii.eqb_neq in Hne. by rewrite Hne. }
      destruct Hsplit as (f & rest & -> & Hf). rewrite split_field by done.
      assert (Hsp : spaceless f ∧ spaceless rest).
      { clear IH Hf Hc. induction f as [|a f IHf]; simpl in *.
        - by destruct Hs.
        - destruct Hs as [Ha Hs]. destruct (IHf Hs). auto. }
      destruct Hsp as [Hsf Hsr]. constructor; [done|].
      apply (IH (String.length rest)); [|done|done].
      rewrite sapp_length. simpl. lia.
    - destruct s as [|a s]; [by apply List.Forall_nil|].
      rewrite split_last by done.
      apply List.Forall_cons; [by split|by apply List.Forall_nil]. }
  split; [|split; [|split; [|split; [|split; [|split]]]]].
  - intros T conv cfg p dv E. unfold getVector. by rewrite E.
  - intros T conv cfg p dv [val Hv]%exists_lookup. eauto.
  - repeat split.
    + apply split_field.
    + intros rest. by apply (split_field "").
    + apply split_last.
  - intros rv cfg p Hv. by rewrite (Hex _ _ _ _ _ _ Hv).
  - split; [apply isspace_chars|]. split; [apply remove_space_filter|].
    intros T conv cfg p dv val Hv. exists (split (Str.remove_space val)).
    split; [by apply Hex|]. split; [done|].
    apply Hfields, remove_space_spaceless.
  - intros rv cfg p Hv. by rewrite (Hex _ _ _ _ _ _ Hv).
  - intros cfg p dv Hv. by rewrite (Hex _ _ _ _ _ _ Hv).
Qed.

Lemma getVector_spec_witness :
  let cfg := set_string TXmlConfig_new "Histogram:bins-x" "50, 0, 1" in
  getVector (convert (T:=Z) 0%Z) cfg "Histogram:bins-x" [] = Some [50; 0; 1]%Z ∧
  getVector (convert (T:=Z) 0%Z) cfg "Histogram:bins-y" [1]%Z = Some [1]%Z ∧
  split ("50" ++ String "," ",1") = ["50"; ""; "1"] ∧
  getVector (convert (T:=Z) 0%Z)
    (set_string TXmlConfig_new "Histogram:bins-x" "1 2,3")
    "Histogram:bins-x" [] = Some [12; 3]%Z.
Proof.
  intros cfg. split; [|split; [|split]].
  - apply (proj1 (proj2 (proj2 (proj2 getVector_spec)))). reflexivity.
  - apply (proj1 getVector_spec). reflexivity.
  - rewrite (proj1 (proj2 (proj1 (proj2 (proj2 getVector_spec))))) by reflexivity.
    reflexivity.
  - apply (proj1 (proj2 (proj2 (proj2 (proj2 (proj2 getVector_spec)))))).
    reflexivity.
Defined.

(** ** Children of a path *)

Lemma substr0_full n k :
  Str.substr0 n k = k ↔ String.length k ≤ n.
Proof.
  unfold Str.substr0. revert n; induction k as [|c k IH]; intros [|n]; simpl.
  - split; [lia | done].
  - split; [lia | done].
  - split; [done | lia].
  - rewrite <- Nat.succ_le_mono, <- IH.
    split; [intros [= E]; exact E | intros E; f_equal; exact E].
Qed.

Lemma substr0_prefix q rest : Str.substr0 (String.length q) (q ++ rest) = q.
Proof.
  unfold Str.substr0. induction q as [|c q IH]; simpl.
  - by destruct rest.
  - by rewrite IH.
Qed.

Lemma substr0_split n k : ∃ rest, k = Str.substr0 n k ++ rest.
Proof.
  unfold Str.substr0. revert n; induction k as [|c k IH]; intros [|n]; simpl.
  - by exists "".
  - by exists "".
  - by exists (String c k).
  - destruct (IH n) as [rest E]. exists rest. by rewrite <- E.
Qed.

Lemma is_attribute_has_char k : is_attribute k = has_char ":" k.
Proof.
  unfold is_attribute, attrDelim.
  induction k as [|c k IH]; simpl; [done|].
  rewrite (Ascii.eqb_sym c). destruct (Ascii.eqb ":" c); simpl.
  - by destruct k.
  - rewrite <- IH. by destruct (Str.find ":" k).
Qed.

Lemma is_child_spec q k :
  is_child q k = true ↔
    Str.substr0 (String.length q) k = q ∧
    String.length q < String.length k ∧
    has_char ":" k = false.
Proof.
  unfold is_child. rewrite is_attribute_has_char.
  rewrite !andb_true_iff, !negb_true_iff, String.eqb_neq, String.eqb_eq.
  rewrite substr0_full. split; intros (? & ? & ?); repeat split; auto; lia.
Qed.

Lemma childrenOf_filter cfg p :
  childrenOf cfg p =
  filter (λ k, is_child (canonize p) k = true) (entries (mNodes cfg)).*1.
Proof.
  unfold childrenOf. generalize (entries (mNodes cfg)) as l.
  set (q := canonize p).
  assert (H : ∀ (l : list (string * string)) (acc : list string),
    fold_left
      (λ result (kv : string * string),
         let parent := Str.substr0 (String.length q) kv.1 in
         if String.eqb parent kv.1 then result
         else if String.eqb parent q && negb (is_attribute kv.1)
              then (result ++ [kv.1])%list else result) l acc
    = (acc ++ filter (λ k, is_child q k = true) l.*1)%list).
  { induction l as [|[k v] l IH]; intros acc; simpl.
    - by rewrite filter_nil, (right_id_L [] (++)%list).
    - rewrite IH, filter_cons.
      assert (Hstep :
        (if String.eqb (Str.substr0 (String.length q) k) k then acc
         else if String.eqb (Str.substr0 (String.length q) k) q
                 && negb (is_attribute k)
              then (acc ++ [k])%list else acc)
        = if is_child q k then (acc ++ [k])%list else acc).
      { unfold is_child. simpl.
        destruct (String.eqb (Str.substr0 (String.length q) k) k); simpl;
          [done|]. by destruct (_ && _). }
      rewrite Hstep. destruct (decide (is_child q k = true)) as [E|E].
      + by rewrite E, <- (assoc_L (++)%list).
      + apply not_true_is_false in E. by rewrite E. }
  intros l. apply H.
Qed.

(** The keys of a map in iteration order: every key once, increasing. *)
Lemma elem_of_entries_keys (m : gmap string string) k :
  k ∈ (entries m).*1 ↔ is_Some (m !! k).
Proof.
  unfold entries. rewrite merge_sort_Permutation, list_elem_of_fmap. split.
  - intros ([k' v] & -> & Hin%elem_of_map_to_list). eauto.
  - intros [v Hv]. exists (k, v). by rewrite elem_of_map_to_list.
Qed.

#[local] Instance key_le_trans : Transitive key_le.
Proof. intros a b c. unfold key_le. apply transitivity. Qed.

#[local] Instance key_le_total : Total key_le.
Proof. intros a b. unfold key_le. apply total, _. Qed.

Lemma StronglySorted_strict {A} (R : relation A) `{!AntiSymm (=) R} l :
  StronglySorted R l → NoDup l → StronglySorted (strict R) l.
Proof.
  induction 1 as [|x l Hl IH Hx]; intros Hnd; [constructor|].
  apply NoDup_cons in Hnd as [Hnx Hnd]. constructor; [auto|].
  rewrite Forall_forall in Hx |- *. intros y Hy. split; [auto|].
  intros Hyx. assert (x = y) as -> by (apply (anti_symm R); auto). done.
Qed.

Lemma StronglySorted_filter {A} (R : relation A) (P : A → Prop)
    `{!∀ x, Decision (P x)} l :
  StronglySorted R l → StronglySorted R (filter P l).
Proof.
  induction 1 as [|x l Hl IH Hx]; [constructor|].
  rewrite filter_cons. destruct (decide (P x)); [|done].
  constructor; [done|]. rewrite Forall_forall in Hx |- *.
  intros y [_ Hy]%list_elem_of_filter. auto.
Qed.

Lemma entries_keys_sorted (m : gmap string string) :
  StronglySorted (strict String.le) (entries m).*1.
Proof.
  apply StronglySorted_strict; [apply _| |].
  - apply (StronglySorted_fmap _ key_le); [by intros [] []|].
    apply StronglySorted_merge_sort; apply _.
  - unfold entries. rewrite merge_sort_Permutation.
    apply NoDup_fst_map_to_list.
Qed.

(** A key passes the test when it is the canonical query path followed
    by at least one character, none of the whole being a [:]. *)
Lemma is_child_prefix q k :
  is_child q k = true ↔
  ∃ rest, rest ≠ "" ∧ k = q ++ rest ∧ has_char ":" k = false.
Proof.
  rewrite is_child_spec. split.
  - intros (Hq & Hl & Hc). destruct (substr0_split (String.length q) k)
      as [rest Hk]. rewrite Hq in Hk. exists rest. repeat split; [|done..].
    intros ->. rewrite Hk, sapp_nil_r in Hl. lia.
  - intros (rest & Hr & -> & Hc). rewrite substr0_prefix, sapp_length.
    repeat split; [|done]. destruct rest; [done|]. simpl. lia.
Qed.

(** C8: [childrenOf] gives, in increasing key order and once each, the
    stored keys that are longer than the canonical query path, begin with
    its characters and hold no [:]. Nothing ties the end of the query to
    the end of a path segment: [Foo] has the child [Foo2]. *)
Theorem childrenOf_spec (cfg : TXmlConfig) (p : string) :
  let q := canonize p in
  (∀ k, k ∈ childrenOf cfg p ↔
        is_Some (mNodes cfg !! k) ∧
        Str.substr0 (String.length q) k = q ∧
        String.length q < String.length k ∧
        has_char ":" k = false) ∧
  StronglySorted (strict String.le) (childrenOf cfg p) ∧
  childrenOf
    {| mErrorParsing := false;
       mNodes := list_to_map [("Foo", "1"); ("Foo2", "2"); ("Foo.b", "3");
                              ("Foo:a", "4"); ("Foo.b:a", "5"); ("Fo", "6")] |}
    " Foo[0]" = ["Foo.b"; "Foo2"].
Proof.
  intros q. split; [|split].
  - intros k. rewrite childrenOf_filter, list_elem_of_filter.
    rewrite is_child_spec, elem_of_entries_keys. fold q. tauto.
  - rewrite childrenOf_filter. apply StronglySorted_filter, entries_keys_sorted.
  - by vm_compute.
Qed.

(** ** The lowest free index *)

Lemma index_suffix_inj i j : index_suffix i = index_suffix j → i = j.
Proof.
  unfold index_suffix. intros [= E]. apply sapp_inv_tail in E.
  apply DecimalNat.Unsigned.to_uint_inj.
  pose proof (NilEmpty.usu (Nat.to_uint i)) as Hi.
  rewrite E, NilEmpty.usu in Hi. by injection Hi.
Qed.

Lemma indexed_path_inj path i j :
  path ++ index_suffix i = path ++ index_suffix j → i = j.
Proof. intros E%(inj (String.append path)). by apply index_suffix_inj. Qed.

Lemma pathCount_loop_spec fuel m path index :
  let r := pathCount_loop fuel m path index in
  index ≤ r ≤ index + fuel ∧
  (∀ j, index ≤ j < r → is_Some (m !! (path ++ index_suffix j))) ∧
  (r < index + fuel → m !! (path ++ index_suffix r) = None).
Proof.
  revert index; induction fuel as [|fuel IH]; intros index; simpl.
  - repeat split; intros; lia.
  - unfold count.
    destruct (m !! (path ++ index_suffix index)) as [v|] eqn:E; simpl.
    + destruct (IH (S index)) as (Hr & Hbelow & Hfree).
      repeat split; try lia.
      * intros j Hj. destruct (decide (j = index)) as [->|]; [eauto|].
        apply Hbelow; lia.
      * intros Hlt. apply Hfree; lia.
    + repeat split; intros; first [lia | done].
Qed.

(** Keys that are all in the map are no more than its entries. *)
Lemma keys_bound (m : gmap string string) (l : list string) :
  NoDup l → (∀ k, k ∈ l → is_Some (m !! k)) → List.length l ≤ size m.
Proof.
  intros Hnd Hin. rewrite <- size_dom. unfold size, set_size. simpl.
  apply submseteq_length, NoDup_submseteq; [done|].
  intros k Hk. apply elem_of_elements, elem_of_dom. auto.
Qed.

(** [pathCount] finds the lowest index from 1 on whose path is free: the
    loop ends before its fuel does. *)
Lemma pathCount_least m path :
  let r := pathCount m path in
  1 ≤ r ∧
  m !! (path ++ index_suffix r) = None ∧
  (∀ j, 1 ≤ j < r → is_Some (m !! (path ++ index_suffix j))).
Proof.
  intros r. unfold pathCount in r.
  destruct (pathCount_loop_spec (S (size m)) m path 1) as (Hr & Hbelow & Hfree).
  fold r in Hr, Hbelow, Hfree.
  split; [lia|]. split; [|done].
  apply Hfree. destruct (decide (r < 1 + S (size m))) as [|Hge]; [done|].
  exfalso.
  pose proof (keys_bound m ((λ j, path ++ index_suffix j) <$> seq 1 (S (size m)))) as Hb.
  rewrite length_fmap, length_seq in Hb.
  enough (S (size m) ≤ size m) by lia. apply Hb.
  - apply NoDup_fmap_2; [|apply NoDup_seq].
    intros i j. apply indexed_path_inj.
  - intros k (j & -> & Hj%elem_of_seq)%list_elem_of_fmap.
    apply Hbelow. lia.
Qed.

(** ** Flattening: what stays *)

Lemma mapFile_unfold name content attrs children level path m :
  mapFile (mkNode name content attrs children) level path m =
  let key := node_key m (bare_path level path name) in
  fold_left (λ m child, mapFile child (level + 1) key m) children
    (mapAttrs key attrs (<[key := default valDNE content]> m)).
Proof.
  cbn [mapFile]. unfold node_key, bare_path.
  by destruct (count m _ =? 0).
Qed.

(** A node never takes a key in use. *)
Lemma node_key_free m path : m !! node_key m path = None.
Proof.
  unfold node_key, count. destruct (m !! path) eqn:E; simpl; [|done].
  apply pathCount_least.
Qed.

Lemma has_char_app c s t : has_char c (s ++ t) = has_char c s || has_char c t.
Proof.
  induction s as [|a s IH]; simpl; [done|]. by rewrite IH, orb_assoc.
Qed.

Lemma mapAttrs_lookup_node key attrs m k :
  has_char ":" k = false → mapAttrs key attrs m !! k = m !! k.
Proof.
  intros Hk. unfold mapAttrs. revert m.
  induction attrs as [|a attrs IH]; intros m; simpl; [done|].
  rewrite IH, lookup_insert_ne; [done|].
  intros <-. unfold attrDelim in Hk.
  rewrite !has_char_app in Hk. simpl in Hk.
  by rewrite orb_true_r in Hk.
Qed.

Lemma mapAttrs_is_Some key attrs m k :
  is_Some (m !! k) → is_Some (mapAttrs key attrs m !! k).
Proof.
  unfold mapAttrs. revert m.
  induction attrs as [|a attrs IH]; intros m Hk; simpl; [done|].
  apply IH. rewrite lookup_insert. case_decide; eauto.
Qed.

Lemma mapAttrs_stored key attrs m a :
  a ∈ attrs →
  is_Some (mapAttrs key attrs m !! (key ++ attrDelim ++ GetAttrName a)).
Proof.
  unfold mapAttrs. revert m.
  induction attrs as [|b attrs IH]; intros m Ha; simpl.
  - by apply elem_of_nil in Ha.
  - apply elem_of_cons in Ha as [->|Ha]; [|by apply IH].
    apply (mapAttrs_is_Some key attrs). rewrite lookup_insert_eq. eauto.
Qed.

(** Flattening a subtree leaves every node entry already in the map as it
    is. *)
Lemma mapFile_lookup_node node : ∀ level path m k v,
  m !! k = Some v → has_char ":" k = false →
  mapFile node level path m !! k = Some v.
Proof.
  induction node as [name content attrs children IH] using XMLNode_tree_ind.
  intros level path m k v Hk Hc. rewrite mapFile_unfold. cbv zeta.
  set (key := node_key m (bare_path level path name)).
  assert (Hm : mapAttrs key attrs (<[key := default valDNE content]> m) !! k
               = Some v).
  { rewrite mapAttrs_lookup_node by done. rewrite lookup_insert_ne; [done|].
    intros E. pose proof (node_key_free m (bare_path level path name)) as Hf.
    fold key in Hf. congruence. }
  revert Hm. generalize (mapAttrs key attrs (<[key := default valDNE content]> m)).
  induction IH as [|c cs Hc' _ IHcs]; intros m' Hm; simpl; [done|].
  apply IHcs. by apply Hc'.
Qed.

(** Flattening a subtree removes no key. *)
Lemma mapFile_is_Some node : ∀ level path m k,
  is_Some (m !! k) → is_Some (mapFile node level path m !! k).
Proof.
  induction node as [name content attrs children IH] using XMLNode_tree_ind.
  intros level path m k Hk. rewrite mapFile_unfold. cbv zeta.
  set (key := node_key m (bare_path level path name)).
  assert (Hm : is_Some (mapAttrs key attrs
                          (<[key := default valDNE content]> m) !! k)).
  { apply mapAttrs_is_Some. rewrite lookup_insert. case_decide; eauto. }
  revert Hm. generalize (mapAttrs key attrs (<[key := default valDNE content]> m)).
  induction IH as [|c cs Hc' _ IHcs]; intros m' Hm; simpl; [done|].
  apply IHcs. by apply Hc'.
Qed.

Lemma sapp_nonempty_l s t : s ≠ "" → s ++ t ≠ "".
Proof. by destruct s. Qed.

Lemma sapp_nonempty_r s t : t ≠ "" → s ++ t ≠ "".
Proof. destruct s; [done|]. by intros _. Qed.

Lemma sapp_neq_self s t : t ≠ "" → s ++ t ≠ s.
Proof.
  intros Ht E. apply (f_equal String.length) in E.
  rewrite sapp_length in E. destruct t; [done|]. simpl in E. lia.
Qed.

Lemma plain_name_spec n :
  plain_name n = true ↔
  n ≠ "" ∧ has_char "." n = false ∧ has_char ":" n = false ∧
  has_char "[" n = false.
Proof.
  unfold plain_name. rewrite !andb_true_iff, !negb_true_iff, String.eqb_neq.
  tauto.
Qed.

(** Flattening the subtree of a named node touches only keys that begin
    with the bare path of the node. *)
Lemma mapFile_lookup_other node : ∀ level path m k,
  (1 < level)%Z → GetNodeName node ≠ "" → plain_below node = true →
  Str.starts_with (bare_path level path (GetNodeName node)) k = false →
  mapFile node level path m !! k = m !! k.
Proof.
  induction node as [name content attrs children IH] using XMLNode_tree_ind.
  intros level path m k Hl Hn Hb Hk. cbn [GetNodeName plain_below] in *.
  rewrite mapFile_unfold. cbv zeta.
  set (bare := bare_path level path name) in *.
  assert (Hbare : bare ≠ "").
  { unfold bare, bare_path. apply Z.ltb_lt in Hl. rewrite Hl.
    by apply sapp_nonempty_r. }
  assert (Hkey : ∃ t, node_key m bare = bare ++ t).
  { unfold node_key. destruct (count m bare =? 0); [|by eexists].
    exists "". by rewrite sapp_nil_r. }
  destruct Hkey as [t Hkey]. rewrite Hkey.
  assert (Hnot : ∀ u, k ≠ bare ++ u).
  { intros u ->. by rewrite starts_with_app in Hk. }
  assert (Hm : mapAttrs (bare ++ t) attrs
                 (<[bare ++ t := default valDNE content]> m) !! k = m !! k).
  { unfold mapAttrs.
    generalize (<[bare ++ t := default valDNE content]> m)
      (lookup_insert_ne m (bare ++ t) k (default valDNE content)
         (λ E, Hnot t (eq_sym E))).
    induction attrs as [|a attrs IHa]; intros m' Hm'; simpl; [done|].
    apply IHa. rewrite lookup_insert_ne; [done|].
    rewrite sapp_assoc. intros E. by apply (Hnot _ (eq_sym E)). }
  revert Hm. generalize (mapAttrs (bare ++ t) attrs
                           (<[bare ++ t := default valDNE content]> m)).
  induction IH as [|c cs Hc _ IHcs]; intros m' Hm; cbn [fold_left forallb] in *;
    [done|].
  apply andb_true_iff in Hb as [[Hcn Hcb]%andb_true_iff Hb].
  apply IHcs; [done|]. rewrite Hc.
  - exact Hm.
  - lia.
  - apply plain_name_spec in Hcn as [Hne _]. exact Hne.
  - exact Hcb.
  - destruct (Str.starts_with
                (bare_path (level + 1) (bare ++ t) (GetNodeName c)) k) eqn:E;
      [|done].
    apply starts_with_spec in E as [u ->]. exfalso.
    unfold bare_path in Hnot. assert (Hl' : (1 <? level + 1)%Z = true)
      by (apply Z.ltb_lt; lia).
    unfold bare_path in *. rewrite Hl' in *.
    assert (Hne : String.eqb (bare ++ t) "" = false)
      by by apply String.eqb_neq, sapp_nonempty_l.
    rewrite Hne in *. apply (Hnot (t ++ pathDelim ++ GetNodeName c ++ u)).
    by rewrite !sapp_assoc.
Qed.

(** The value of an attribute is stored under its key when no other
    attribute of the node has its name. *)
Lemma mapAttrs_value key attrs m a :
  NoDup (GetAttrName <$> attrs) → a ∈ attrs →
  mapAttrs key attrs m !! (key ++ attrDelim ++ GetAttrName a)
  = Some (default valDNE (GetAttrValue a)).
Proof.
  unfold mapAttrs. revert m.
  induction attrs as [|b attrs IH]; intros m Hnd Ha; simpl.
  - by apply elem_of_nil in Ha.
  - cbn [fmap list_fmap] in Hnd. apply NoDup_cons in Hnd as [Hb Hnd].
    apply elem_of_cons in Ha as [->|Ha]; [|by apply IH].
    assert (Hkeep : ∀ (l : list XMLAttr) (m' : gmap string string) k v,
      m' !! k = Some v →
      (∀ c, c ∈ l → k ≠ key ++ attrDelim ++ GetAttrName c) →
      fold_left (λ m attr,
          <[key ++ attrDelim ++ GetAttrName attr
            := default valDNE (GetAttrValue attr)]> m) l m' !! k = Some v).
    { induction l as [|c l IHl]; intros m' k v Hk Hl; simpl; [done|].
      apply IHl; [|intros c' Hc'; apply Hl; by right].
      rewrite lookup_insert_ne; [done|]. intros E. apply (Hl c); [by left|done]. }
    apply Hkeep; [apply lookup_insert_eq|].
    intros c Hc E%(inj (String.append _)). unfold attrDelim in E.
    injection E as E. apply Hb. rewrite E. apply list_elem_of_fmap. eauto.
Qed.

(** ** Loading *)

Section LoadFacts.
Variables ParseString ParseFile : string → option XMLNode.
Abbreviation load := (load ParseString ParseFile).
Abbreviation parse := (parse ParseString ParseFile).

Lemma load_failure cfg filename asString :
  parse filename asString = None →
  load cfg filename asString = {| mErrorParsing := true; mNodes := ∅ |}.
Proof. unfold parse, load. by destruct asString; intros ->. Qed.

Lemma load_success cfg filename asString root_node :
  parse filename asString = Some root_node →
  load cfg filename asString =
    {| mErrorParsing := mErrorParsing cfg; mNodes := flatten root_node |}.
Proof. unfold parse, load. by destruct asString; intros ->. Qed.

(** Once set, the error flag stays set. *)
Lemma load_keeps_error cfg filename asString :
  mErrorParsing cfg = true →
  mErrorParsing (load cfg filename asString) = true.
Proof.
  intros He. destruct (parse filename asString) as [root_node|] eqn:E.
  - by rewrite (load_success _ _ _ _ E).
  - by rewrite (load_failure _ _ _ E).
Qed.

(** C9: a document that does not parse leaves the error flag set and the
    map empty; nothing exists afterwards and every accessor gives back
    its default.  The flag survives later loads and writes. *)
Theorem load_parse_failure cfg filename asString :
  parse filename asString = None →
  let cfg' := load cfg filename asString in
  mErrorParsing cfg' = true ∧
  mNodes cfg' = ∅ ∧
  (∀ p, exists_ cfg' p = false) ∧
  (∀ p d, get_string cfg' p d = Some d) ∧
  (∀ T (conv : string → T) p d, get conv cfg' p d = Some d) ∧
  (∀ T (conv : string → T) p dv, getVector conv cfg' p dv = Some dv) ∧
  (∀ p, childrenOf cfg' p = []) ∧
  (∀ filename2 asString2,
     mErrorParsing (load cfg' filename2 asString2) = true) ∧
  (∀ p v, mErrorParsing (set_string cfg' p v) = true).
Proof.
  intros Hp cfg'. unfold cfg'. rewrite (load_failure _ _ _ Hp).
  assert (He : ∀ p, exists_ {| mErrorParsing := true; mNodes := ∅ |} p = false).
  { intros p. by apply exists_false_lookup. }
  split; [done|]. split; [done|]. split; [done|].
  split; [|split; [|split; [|split; [|split]]]].
  - intros p d. unfold get_string. by rewrite He.
  - intros T conv p d. unfold get. by rewrite He.
  - intros T conv p dv. unfold getVector. by rewrite He.
  - intros p. reflexivity.
  - intros. by apply load_keeps_error.
  - done.
Qed.

(** C10: after a load that parsed, the root node is stored under the
    empty path with its content, or the DNE marker when it has none, and
    each of its attributes has an entry under [:] followed by its
    name; the entry holds the value of the attribute when the names in
    the document are plain and those of the root attributes differ. *)
Theorem load_root_entry cfg filename asString root_node :
  parse filename asString = Some root_node →
  let cfg' := load cfg filename asString in
  mNodes cfg' !! "" = Some (default valDNE (GetNodeContent root_node)) ∧
  exists_ cfg' "" = true ∧
  (∀ a, a ∈ GetAttrs root_node →
        is_Some (mNodes cfg' !! (":" ++ GetAttrName a))) ∧
  (plain_below root_node = true →
   NoDup (GetAttrName <$> GetAttrs root_node) →
   ∀ a, a ∈ GetAttrs root_node →
        mNodes cfg' !! (":" ++ GetAttrName a)
        = Some (default valDNE (GetAttrValue a))).
Proof.
  intros Hp cfg'. unfold cfg'. rewrite (load_success _ _ _ _ Hp).
  destruct root_node as [name content attrs children]. cbn [mNodes].
  unfold flatten. rewrite mapFile_unfold. cbv zeta.
  change (node_key ∅ (bare_path 1 "" name)) with "".
  set (m := mapAttrs "" attrs (<["" := default valDNE content]> ∅)).
  assert (Hroot : m !! "" = Some (default valDNE content)).
  { unfold m. rewrite mapAttrs_lookup_node by done. apply lookup_insert_eq. }
  assert (Hattr : ∀ a, a ∈ attrs → is_Some (m !! (":" ++ GetAttrName a))).
  { intros a Ha. apply (mapAttrs_stored "" attrs _ a Ha). }
  assert (Hkeep : ∀ (cs : list XMLNode) (m' : gmap string string),
    (∀ k v, m !! k = Some v → has_char ":" k = false → m' !! k = Some v) →
    (∀ k, is_Some (m !! k) → is_Some (m' !! k)) →
    let m'' := fold_left (λ m child, mapFile child (1 + 1) "" m) cs m' in
    (∀ k v, m !! k = Some v → has_char ":" k = false → m'' !! k = Some v) ∧
    (∀ k, is_Some (m !! k) → is_Some (m'' !! k))).
  { induction cs as [|c cs IH]; intros m' H1 H2; simpl; [done|].
    apply IH.
    - intros k v Hk Hc. apply mapFile_lookup_node; auto.
    - intros k Hk. apply mapFile_is_Some; auto. }
  destruct (Hkeep children m) as [H1 H2]; [done..|].
  assert (Hroot' := H1 "" _ Hroot eq_refl).
  split; [done|]. split; [|split].
  - apply exists_lookup. cbn [mNodes]. change (canonize "") with "". eauto.
  - intros a Ha. cbn [GetAttrs] in Ha. apply H2, Hattr, Ha.
  - cbn [GetAttrs plain_below]. intros Hb Hnd a Ha.
    rewrite <- (mapAttrs_value "" attrs (<["" := default valDNE content]> ∅)
                  a Hnd Ha).
    fold m. change ("" ++ attrDelim ++ GetAttrName a)
      with (":" ++ GetAttrName a).
    clear -Hb. revert Hb. generalize m.
    induction children as [|c cs IH]; intros m' Hb; cbn [fold_left forallb] in *;
      [done|].
    apply andb_true_iff in Hb as [[Hcn Hcb]%andb_true_iff Hb].
    rewrite IH by done. apply mapFile_lookup_other; [lia| |done|].
    + apply plain_name_spec in Hcn as [Hne _]. exact Hne.
    + apply plain_name_spec in Hcn as (Hne & _ & Hc & _).
      change (bare_path (1 + 1) "" (GetNodeName c)) with (GetNodeName c).
      destruct (GetNodeName c) as [|x n]; [done|]. simpl in *.
      apply orb_false_elim in Hc as [Hx _]. by rewrite Hx.
Qed.
End LoadFacts.

Lemma load_parse_failure_witness :
  let cfg := load toy_parser toy_parser TXmlConfig_new "<config" true in
  parse toy_parser toy_parser "<config" true = None ∧
  mErrorParsing cfg = true ∧
  ∀ p, exists_ cfg p = false.
Proof.
  pose proof (load_parse_failure toy_parser toy_parser TXmlConfig_new
                "<config" true eq_refl) as H.
  split; [reflexivity|]. split; [apply H|apply H].
Defined.

Lemma load_root_entry_witness :
  let doc := "<config a='1'>text</config>" in
  let cfg := load toy_parser toy_parser TXmlConfig_new doc true in
  parse toy_parser toy_parser doc true
    = Some (mkNode "config" (Some "text") [mkAttr "a" (Some "1")] []) ∧
  mNodes cfg !! "" = Some "text" ∧
  exists_ cfg "" = true ∧
  mNodes cfg !! ":a" = Some "1".
Proof.
  pose proof (load_root_entry toy_parser toy_parser TXmlConfig_new
                "<config a='1'>text</config>" true _ eq_refl) as H.
  split; [reflexivity|]. split; [apply H|]. split; [apply H|].
  apply (proj2 (proj2 (proj2 H)) eq_refl (NoDup_singleton "a")
           (mkAttr "a" (Some "1"))).
  by left.
Defined.

(** ** Flattening against the rule for repeated siblings *)

Lemma spec_nodes_unfold key level name content attrs children :
  spec_nodes key level (mkNode name content attrs children) =
  (key, default valDNE content) :: spec_siblings key (level + 1) [] children.
Proof.
  cbn [spec_nodes]. f_equal. generalize (@nil string) as before.
  induction children as [|c cs IH]; intros before; [done|].
  cbn [spec_siblings]. by rewrite <- IH.
Qed.

Lemma has_char_split_inj c a a' b b' :
  has_char c a = false → has_char c a' = false →
  a ++ String c b = a' ++ String c b' → a = a' ∧ b = b'.
Proof.
  revert a'; induction a as [|x a IH]; intros [|x' a']; simpl.
  - by intros _ _ [= ->].
  - intros _ [Hx _]%orb_false_elim [= <- _]. by rewrite Ascii.eqb_refl in Hx.
  - intros [Hx _]%orb_false_elim _ [= -> _]. by rewrite Ascii.eqb_refl in Hx.
  - intros [_ Ha]%orb_false_elim [_ Ha']%orb_false_elim [= -> E].
    destruct (IH _ Ha Ha' E) as [-> ->]. done.
Qed.

Lemma has_char_digits c d :
  Stream.digit c = None → has_char c (NilEmpty.string_of_uint d) = false.
Proof.
  intros Hc. induction d; simpl; [done|..]; rewrite IHd, orb_false_r;
    apply Ascii.eqb_neq; intros <-; discriminate.
Qed.

Lemma has_char_index_suffix c i :
  Stream.digit c = None → c ≠ "["%char → c ≠ "]"%char →
  has_char c (index_suffix i) = false.
Proof.
  intros Hd Ho Hc. unfold index_suffix. simpl.
  rewrite has_char_app, has_char_digits by done. simpl.
  rewrite !orb_false_r. apply orb_false_intro; apply Ascii.eqb_neq; congruence.
Qed.

Lemma segment_nonempty n i : plain_name n = true → segment n i ≠ "".
Proof.
  intros (Hn & _)%plain_name_spec. unfold segment.
  destruct (i =? 0); [done|]. by destruct n.
Qed.

Lemma segment_no_char c n i :
  Stream.digit c = None → c ≠ "["%char → c ≠ "]"%char →
  has_char c n = false → has_char c (segment n i) = false.
Proof.
  intros Hd Ho Hc Hn. unfold segment. destruct (i =? 0); [done|].
  by rewrite has_char_app, Hn, has_char_index_suffix.
Qed.

Lemma segment_no_dot n i :
  plain_name n = true → has_char "." (segment n i) = false.
Proof. intros (_ & H & _)%plain_name_spec. by apply segment_no_char. Qed.

Lemma segment_no_colon n i :
  plain_name n = true → has_char ":" (segment n i) = false.
Proof. intros (_ & _ & H & _)%plain_name_spec. by apply segment_no_char. Qed.

Lemma segment_inj n i n' i' :
  plain_name n = true → plain_name n' = true →
  segment n i = segment n' i' → n = n' ∧ i = i'.
Proof.
  intros (_ & _ & _ & Hn)%plain_name_spec (_ & _ & _ & Hn')%plain_name_spec.
  unfold segment.
  destruct (Nat.eqb_spec i 0) as [->|Hi], (Nat.eqb_spec i' 0) as [->|Hi'].
  - done.
  - intros ->. rewrite has_char_app in Hn. unfold index_suffix in Hn.
    simpl in Hn. by rewrite orb_true_r in Hn.
  - intros <-. rewrite has_char_app in Hn'. unfold index_suffix in Hn'.
    simpl in Hn'. by rewrite orb_true_r in Hn'.
  - intros E. unfold index_suffix in E. simpl in E.
    destruct (has_char_split_inj _ _ _ _ _ Hn Hn' E) as [-> E'].
    split; [done|]. apply index_suffix_inj. unfold index_suffix. simpl.
    by rewrite E'.
Qed.

Lemma sibling_key_segment parent level n i :
  (1 < level)%Z →
  sibling_key parent level n i = child_prefix parent ++ segment n i.
Proof.
  intros Hl. unfold sibling_key, bare_path, child_prefix, segment.
  apply Z.ltb_lt in Hl. rewrite Hl.
  destruct (i =? 0); [done|]. apply sapp_assoc.
Qed.

Lemma child_prefix_dot K : K ≠ "" → child_prefix K = K ++ ".".
Proof.
  intros HK. unfold child_prefix, pathDelim.
  apply String.eqb_neq in HK. by rewrite HK.
Qed.

(** Every key the rule gives within a subtree is the key of its top
    node, or begins with it and a [.]. *)
Lemma spec_nodes_shape c : ∀ K level k v,
  K ≠ "" → (0 < level)%Z → (k, v) ∈ spec_nodes K level c →
  k = K ∨ ∃ rest, k = K ++ "." ++ rest.
Proof.
  induction c as [name content attrs children IH] using XMLNode_tree_ind.
  intros K level k v HK Hl. rewrite spec_nodes_unfold.
  intros [[= -> ->]|Hin]%elem_of_cons; [by left|]. right.
  revert Hin. generalize (@nil string) as before.
  induction IH as [|c cs Hc _ IHcs]; intros before; cbn [spec_siblings].
  - by intros ?%elem_of_nil.
  - intros [Hin|Hin]%elem_of_app; [|by eapply IHcs].
    rewrite sibling_key_segment, (child_prefix_dot K) in Hin by (done || lia).
    apply Hc in Hin as [->|[rest ->]];
      [| |by apply sapp_nonempty_l, sapp_nonempty_l|lia].
    + rewrite sapp_assoc. eauto.
    + rewrite !sapp_assoc. eauto.
Qed.

Lemma extends_app m m1 m2 new1 new2 :
  extends m m1 new1 → extends m1 m2 new2 → extends m m2 (new1 ++ new2)%list.
Proof.
  intros H1 H2 k v Hk. rewrite (H2 k v Hk), (H1 k v Hk), elem_of_app. tauto.
Qed.

Lemma occurrences_cons n n' before :
  occurrences n (n' :: before) =
  if decide (n' = n) then S (occurrences n before) else occurrences n before.
Proof. unfold occurrences. rewrite filter_cons. by case_decide. Qed.

Lemma sibling_key_no_colon P level n i :
  (1 < level)%Z → has_char ":" P = false → plain_name n = true →
  has_char ":" (sibling_key P level n i) = false.
Proof.
  intros Hl HP Hn. rewrite sibling_key_segment by done.
  rewrite has_char_app, segment_no_colon, orb_false_r by done.
  unfold child_prefix. destruct (String.eqb P ""); [done|].
  by rewrite has_char_app, HP.
Qed.

Lemma sibling_key_nonempty P level n i :
  (1 < level)%Z → plain_name n = true → sibling_key P level n i ≠ "".
Proof.
  intros Hl Hn. rewrite sibling_key_segment by done.
  by apply sapp_nonempty_r, segment_nonempty.
Qed.

Lemma sibling_key_inj P level n i n' i' :
  (1 < level)%Z → plain_name n = true → plain_name n' = true →
  sibling_key P level n i = sibling_key P level n' i' → n = n' ∧ i = i'.
Proof.
  intros Hl Hn Hn'. rewrite !sibling_key_segment by done.
  intros E%(inj (String.append _)). by apply segment_inj.
Qed.

(** The key of a node is not below the key of one of its siblings. *)
Lemma sibling_key_not_below P level n i n' i' rest :
  (1 < level)%Z → plain_name n' = true →
  sibling_key P level n i ++ "." ++ rest ≠ sibling_key P level n' i'.
Proof.
  intros Hl Hn'. rewrite !sibling_key_segment, sapp_assoc by done.
  intros E%(inj (String.append _)).
  apply (f_equal (has_char ".")) in E.
  rewrite segment_no_dot, has_char_app in E by done. simpl in E.
  by rewrite orb_true_r in E.
Qed.

(** Keys below two siblings are apart unless the siblings are one. *)
Lemma sibling_key_below_inj P level n i n' i' rest rest' :
  (1 < level)%Z → plain_name n = true → plain_name n' = true →
  sibling_key P level n i ++ "." ++ rest
    = sibling_key P level n' i' ++ "." ++ rest' →
  n = n' ∧ i = i'.
Proof.
  intros Hl Hn Hn'. rewrite !sibling_key_segment, !sapp_assoc by done.
  intros E%(inj (String.append _)).
  apply has_char_split_inj in E as [E _]; [|by apply segment_no_dot..].
  by apply segment_inj in E.
Qed.

Lemma sibling_key_0 P level n : sibling_key P level n 0 = bare_path level P n.
Proof. done. Qed.

Lemma sibling_key_pos P level n j :
  j ≠ 0 → sibling_key P level n j = bare_path level P n ++ index_suffix j.
Proof. by destruct j. Qed.

(** Where the siblings of a name so far hold the keys the rule gives
    them, the probing of [mapFile] finds the key the rule gives the next
    one. *)
Lemma node_key_sibling m P level n i :
  (∀ j, is_Some (m !! sibling_key P level n j) ↔ j < i) →
  node_key m (bare_path level P n) = sibling_key P level n i.
Proof.
  intros H. unfold node_key, count.
  destruct (m !! bare_path level P n) as [v|] eqn:E; simpl.
  - assert (Hi : 0 < i) by (apply H; rewrite sibling_key_0; eauto).
    destruct (pathCount_least m (bare_path level P n)) as (Hr & Hfree & Hbelow).
    set (r := pathCount m (bare_path level P n)) in *.
    assert (Hri : ¬ r < i).
    { intros Hlt. apply H in Hlt as [w Hw].
      rewrite sibling_key_pos in Hw by lia. congruence. }
    assert (Hir : ¬ i < r).
    { intros Hlt. assert (Hs : is_Some (m !! sibling_key P level n i)).
      { rewrite sibling_key_pos by lia. apply Hbelow. lia. }
      apply H in Hs. lia. }
    assert (r = i) as -> by lia. by rewrite sibling_key_pos by lia.
  - assert (Hi : ¬ 0 < i).
    { intros [w Hw]%H. rewrite sibling_key_0 in Hw. congruence. }
    by assert (i = 0) as -> by lia.
Qed.

Lemma children_refine cs :
  Forall node_refines cs →
  ∀ before level P m,
    (1 < level)%Z → has_char ":" P = false →
    forallb (λ c, plain_name (GetNodeName c) && plain_below c) cs = true →
    (∀ n j, plain_name n = true →
       is_Some (m !! sibling_key P level n j) ↔ j < occurrences n before) →
    (∀ n j rest, plain_name n = true → has_char ":" rest = false →
       is_Some (m !! (sibling_key P level n j ++ "." ++ rest)) →
       j < occurrences n before) →
    extends m (fold_left (λ m c, mapFile c level P m) cs m)
      (spec_siblings P level before cs).
Proof.
  induction 1 as [|c cs Hc _ IHcs];
    intros before level P m Hl HP Hplain H1 H2.
  { intros k v Hk. simpl. rewrite elem_of_nil. tauto. }
  cbn [forallb] in Hplain.
  apply andb_true_iff in Hplain as [[Hn Hb]%andb_true_iff Hplain].
  cbn [fold_left spec_siblings]. cbv zeta.
  set (n := GetNodeName c) in *. set (i := occurrences n before).
  set (K := sibling_key P level n i).
  assert (Hext : extends m (mapFile c level P m) (spec_nodes K level c)).
  { apply Hc; auto.
    intros rest Hr.
    destruct (m !! (sibling_key P level n i ++ "." ++ rest)) eqn:E; [|done].
    exfalso. assert (i < i); [|lia]. apply (H2 n i rest); eauto. }
  assert (Htop : mapFile c level P m !! K = Some (default valDNE (GetNodeContent c))).
  { apply Hext; [by apply sibling_key_no_colon|]. right.
    destruct c. rewrite spec_nodes_unfold. by left. }
  apply extends_app with (mapFile c level P m); [done|].
  apply IHcs; auto.
  - intros n' j Hn'. rewrite occurrences_cons.
    assert (Hk : has_char ":" (sibling_key P level n' j) = false)
      by by apply sibling_key_no_colon.
    split.
    + intros [v [Hv|Hin]%Hext]; [| |done].
      * assert (j < occurrences n' before) by (apply H1; eauto).
        case_decide; lia.
      * apply spec_nodes_shape in Hin as [E|[rest E]];
          [| |by apply sibling_key_nonempty|lia].
        -- apply sibling_key_inj in E as [-> ->]; [|done..].
           rewrite decide_True by done. fold i. lia.
        -- symmetry in E. by apply sibling_key_not_below in E.
    + intros Hj. case_decide as Hd.
      * subst n'. destruct (decide (j = i)) as [->|]; [by eexists|].
        assert (is_Some (m !! sibling_key P level n j)) as [v Hv].
        { apply H1; [done|]. fold i. lia. }
        exists v. apply Hext; auto.
      * assert (is_Some (m !! sibling_key P level n' j)) as [v Hv]
          by by apply H1.
        exists v. apply Hext; auto.
  - intros n' j rest Hn' Hr [v Hv]. rewrite occurrences_cons.
    apply Hext in Hv as [Hv|Hin].
    + assert (j < occurrences n' before) by (apply (H2 n' j rest); eauto).
      case_decide; lia.
    + apply spec_nodes_shape in Hin as [E|[rest' E]];
        [| |by apply sibling_key_nonempty|lia].
      * by apply sibling_key_not_below in E.
      * apply sibling_key_below_inj in E as [-> ->]; [|done..].
        rewrite decide_True by done. fold i. lia.
    + rewrite !has_char_app, sibling_key_no_colon by done. simpl.
      by rewrite Hr.
Qed.

Lemma node_refine c : node_refines c.
Proof.
  induction c as [name content attrs children IH] using XMLNode_tree_ind.
  intros level P m i Hl HP Hn Hb H Hfresh. cbn [GetNodeName] in *.
  rewrite mapFile_unfold, spec_nodes_unfold. cbv zeta.
  rewrite (node_key_sibling m P level name i H).
  set (K := sibling_key P level name i) in *.
  assert (HK : has_char ":" K = false) by by apply sibling_key_no_colon.
  assert (HKn : K ≠ "") by by apply sibling_key_nonempty.
  assert (HmK : m !! K = None).
  { destruct (m !! K) eqn:E; [|done]. assert (i < i); [|lia].
    apply H. fold K. eauto. }
  set (m' := mapAttrs K attrs (<[K := default valDNE content]> m)).
  assert (Hext : extends m m' [(K, default valDNE content)]).
  { intros k v Hk. unfold m'. rewrite mapAttrs_lookup_node by done.
    rewrite list_elem_of_singleton, lookup_insert. case_decide as Hd.
    - subst k. rewrite HmK. split; [intros [= <-]; by right|].
      by intros [?|[= ->]].
    - split; [by left|]. by intros [?|[= ? ?]]. }
  apply (extends_app m m' _ [_]); [done|].
  assert (Hbelow : ∀ rest v, has_char ":" rest = false →
                             m' !! (K ++ "." ++ rest) = Some v → False).
  { intros rest v Hr [Hv|[= E _]%list_elem_of_singleton]%Hext.
    - by rewrite Hfresh in Hv.
    - by apply sapp_neq_self in E.
    - rewrite has_char_app, HK. simpl. by rewrite Hr. }
  apply (children_refine children IH); auto.
  - lia.
  - intros n j Hnj. unfold occurrences. rewrite filter_nil. simpl.
    split; [|lia]. intros [v Hv]. exfalso.
    rewrite sibling_key_segment, (child_prefix_dot K), sapp_assoc in Hv
      by (done || lia).
    apply (Hbelow _ _ (segment_no_colon _ _ Hnj) Hv).
  - intros n j rest Hnj Hr [v Hv]. exfalso.
    rewrite sibling_key_segment, (child_prefix_dot K), !sapp_assoc in Hv
      by (done || lia).
    apply (Hbelow (segment n j ++ "." ++ rest) v); [|done].
    rewrite has_char_app, segment_no_colon by done. simpl. by rewrite Hr.
Qed.

(** No key the rule gives holds a [:] when the names are plain. *)
Lemma spec_nodes_no_colon c : ∀ K level k v,
  (0 < level)%Z → plain_below c = true → has_char ":" K = false →
  (k, v) ∈ spec_nodes K level c → has_char ":" k = false.
Proof.
  induction c as [name content attrs children IH] using XMLNode_tree_ind.
  intros K level k v Hl Hb HK. rewrite spec_nodes_unfold.
  intros [[= -> ->]|Hin]%elem_of_cons; [done|].
  cbn [plain_below] in Hb.
  revert Hb Hin. generalize (@nil string) as before.
  induction IH as [|c cs Hc _ IHcs]; intros before Hb;
    cbn [spec_siblings forallb] in *.
  - by intros ?%elem_of_nil.
  - apply andb_true_iff in Hb as [[Hn Hbc]%andb_true_iff Hb].
    intros [Hin|Hin]%elem_of_app; [|by eapply IHcs].
    apply (Hc _ (level + 1)%Z k v) in Hin; [done|lia|done|].
    by apply sibling_key_no_colon; [lia|..].
Qed.

Lemma flatten_extends root_node :
  plain_below root_node = true →
  ∀ k v, has_char ":" k = false →
    flatten root_node !! k = Some v ↔ (k, v) ∈ spec_flatten root_node.
Proof.
  destruct root_node as [name content attrs children]. intros Hb.
  unfold flatten, spec_flatten. rewrite mapFile_unfold, spec_nodes_unfold.
  cbv zeta. change (node_key ∅ (bare_path 1 "" name)) with "".
  set (m := mapAttrs "" attrs (<["" := default valDNE content]> ∅)).
  assert (Hm : ∀ k v, has_char ":" k = false →
                 m !! k = Some v ↔ k = "" ∧ v = default valDNE content).
  { intros k v Hk. unfold m. rewrite mapAttrs_lookup_node by done.
    rewrite lookup_insert. case_decide as Hd.
    - subst k. split; [by intros [= <-]|by intros [_ ->]].
    - rewrite lookup_empty. split; [done|]. by intros [-> _]. }
  assert (Hext : extends m
    (fold_left (λ m child, mapFile child (1 + 1) "" m) children m)
    (spec_siblings "" (1 + 1) [] children)).
  { apply children_refine; auto.
    - clear. induction children; constructor; auto using node_refine.
    - lia.
    - intros n j Hn. unfold occurrences. rewrite filter_nil. simpl.
      split; [|lia]. intros [v Hv]. exfalso.
      apply Hm in Hv as [E _]; [|by apply sibling_key_no_colon].
      revert E. apply sibling_key_nonempty; [lia|done].
    - intros n j rest Hn Hr [v Hv]. exfalso.
      apply Hm in Hv as [E _].
      + revert E. apply sapp_nonempty_l, sibling_key_nonempty; [lia|done].
      + rewrite !has_char_app, sibling_key_no_colon by done. simpl.
        by rewrite Hr. }
  intros k v Hk. rewrite (Hext k v Hk), (Hm k v Hk), elem_of_cons.
  split; intros [H|H]; auto.
  - left. by destruct H as [-> ->].
  - left. by injection H.
Qed.

(** The node entries of a flattened document are those of the rule when
    the names are plain. *)
Lemma flatten_refines root_node :
  plain_below root_node = true →
  (∀ k v, (k, v) ∈ spec_flatten root_node →
          flatten root_node !! k = Some v) ∧
  (∀ k v, has_char ":" k = false → flatten root_node !! k = Some v →
          (k, v) ∈ spec_flatten root_node).
Proof.
  intros Hb. split.
  - intros k v Hin. apply flatten_extends; [done| |done].
    by apply (spec_nodes_no_colon root_node "" 1 k v).
  - intros k v Hk Hv. by apply flatten_extends.
Qed.

(** C1, as the code has it.  A node is stored under its bare path when
    that is free, else under the bare path and [[i]] for the lowest [i]
    from 1 on that is free.  In a document whose element names are plain
    this stores the first node of a name under the bare path and the one
    with [i] earlier siblings of its name under the bare path and [[i]].
    Three [Item] under [Parent] come out as [Parent.Item],
    [Parent.Item[1]] and [Parent.Item[2]]. *)
Theorem flatten_sibling_rule :
  (∀ name content attrs children level path m,
     let bare := bare_path level path name in
     let key := match m !! bare with
                | Some _ => bare ++ index_suffix (pathCount m bare)
                | None => bare
                end in
     mapFile (mkNode name content attrs children) level path m =
     fold_left (λ m child, mapFile child (level + 1) key m) children
       (mapAttrs key attrs (<[key := default valDNE content]> m))) ∧
  (∀ m path,
     let r := pathCount m path in
     1 ≤ r ∧ m !! (path ++ index_suffix r) = None ∧
     ∀ j, 1 ≤ j < r → is_Some (m !! (path ++ index_suffix j))) ∧
  (∀ root_node,
     plain_below root_node = true →
     (∀ k v, (k, v) ∈ spec_flatten root_node →
             flatten root_node !! k = Some v) ∧
     (∀ k v, has_char ":" k = false → flatten root_node !! k = Some v →
             (k, v) ∈ spec_flatten root_node)) ∧
  flatten ex_items =
    list_to_map [("", "<DNE/>"); ("Parent", "<DNE/>"); ("Parent.Item", "a");
                 ("Parent.Item[1]", "b"); ("Parent.Item[2]", "c")].
Proof.
  split; [|split; [|split]].
  - intros. rewrite mapFile_unfold. unfold node_key, count. subst bare key.
    by destruct (m !! bare_path level path name).
  - apply pathCount_least.
  - apply flatten_refines.
  - by vm_compute.
Qed.

Lemma flatten_sibling_rule_witness :
  plain_below ex_items = true ∧
  ∀ k v, (k, v) ∈ spec_flatten ex_items → flatten ex_items !! k = Some v.
Proof.
  split; [reflexivity|].
  apply (proj1 (proj2 (proj2 flatten_sibling_rule)) ex_items).
  reflexivity.
Defined.

(** C1, counterexample: an element name with a [.] in it. The first [c]
    under [b], with the content [x], has the bare path [b.c]; the element
    [b.c] holds that key already, and the first [c] is stored under
    [b.c[1]]. *)
Lemma flatten_dotted_name :
  ("b.c", "x") ∈ spec_flatten ex_dotted ∧
  flatten ex_dotted !! "b.c" ≠ Some "x" ∧
  flatten ex_dotted !! "b.c[1]" = Some "x".
Proof.
  split; [|split].
  - vm_compute. do 3 right. by left.
  - by vm_compute.
  - by vm_compute.
Qed.

(** * Further properties *)

(** ** Writing: what changes and what stays *)

Lemma get_string_get cfg p d : get_string cfg p d = get (λ s, s) cfg p d.
Proof.
  unfold get_string, get. destruct (negb (exists_ cfg p)); [done|].
  by destruct (at_ (mNodes cfg) (canonize p)).
Qed.




(** X2: of two writes to paths with the same canonical form the later
    one stays; writes to paths with different canonical forms can be
    swapped. *)
Theorem set_set cfg p v p' v' :
  (canonize p = canonize p' →
   set_string (set_string cfg p v) p' v' = set_string cfg p' v') ∧
  (canonize p ≠ canonize p' →
   set_string (set_string cfg p v) p' v'
   = set_string (set_string cfg p' v') p v).
Proof.
  unfold set_string. simpl. split.
  - intros ->. by rewrite insert_insert_eq.
  - intros Hne. by rewrite insert_insert_ne.
Qed.

Lemma set_set_witness :
  set_string (set_string TXmlConfig_new "Level0[0]" "a") " Level0" "b"
  = set_string TXmlConfig_new " Level0" "b" ∧
  set_string (set_string TXmlConfig_new "Level0" "a") "Level1" "b"
  = set_string (set_string TXmlConfig_new "Level1" "b") "Level0" "a".
Proof.
  split.
  - apply (proj1 (set_set TXmlConfig_new "Level0[0]" "a" " Level0" "b")).
    reflexivity.
  - apply (proj2 (set_set TXmlConfig_new "Level0" "a" "Level1" "b")).
    by vm_compute.
Defined.

(** X3: what [load] builds does not depend on the object it is called
    on, but for the error flag, which it never clears: entries written
    before are gone, and loading the same document again changes
    nothing. *)
Theorem load_rebuilds (ParseString ParseFile : string → option XMLNode)
    cfg cfg' filename asString :
  mNodes (load ParseString ParseFile cfg filename asString)
  = mNodes (load ParseString ParseFile cfg' filename asString) ∧
  load ParseString ParseFile
    (load ParseString ParseFile cfg filename asString) filename asString
  = load ParseString ParseFile cfg filename asString ∧
  (mErrorParsing (load ParseString ParseFile cfg filename asString) = false ↔
   mErrorParsing cfg = false ∧
   is_Some (parse ParseString ParseFile filename asString)).
Proof.
  unfold load, parse.
  destruct (if asString then ParseString filename else ParseFile filename)
    as [root_node|]; simpl; repeat split; try done.
  - by intros [? ?].
  - by intros [? [? ?]].
Qed.

(** ** Canonical paths: which index goes *)

Lemma starts_with_prefix pat s t :
  Str.starts_with pat s = true → Str.starts_with pat (s ++ t) = true.
Proof.
  intros [u ->]%starts_with_spec. rewrite sapp_assoc. apply starts_with_app.
Qed.

Lemma starts_with_shorten pat w t :
  String.length pat ≤ String.length w →
  Str.starts_with pat (w ++ t) = true → Str.starts_with pat w = true.
Proof.
  revert w; induction pat as [|a pat IH]; intros [|b w]; simpl;
    try done; try lia.
  intros Hl. destruct (Ascii.eqb a b); [|done]. apply IH. lia.
Qed.

Lemma find_app_Some pat s t q :
  Str.find pat s = Some q → Str.find pat (s ++ t) = Some q.
Proof.
  revert q; induction s as [|c s IH]; intros q.
  - simpl. destruct (Str.starts_with pat "") eqn:E; [|done].
    intros [= <-]. apply find_starts_with.
    by apply (starts_with_prefix pat "" t).
  - change (String c s ++ t) with (String c (s ++ t)). cbn [Str.find].
    destruct (Str.starts_with pat (String c s)) eqn:E.
    + intros [= <-].
      pose proof (starts_with_prefix pat (String c s) t E) as E'.
      change (String c s ++ t) with (String c (s ++ t)) in E'.
      by rewrite E'.
    + destruct (Str.find pat s) as [q'|] eqn:Ef; [|done].
      intros [= <-]. rewrite (IH q' eq_refl).
      destruct (Str.starts_with pat (String c (s ++ t))) eqn:E'; [|done].
      (* an occurrence at 0 would end inside [s]: it is there in [s] too *)
      apply find_Some_length in Ef.
      apply (starts_with_shorten pat (String c s) t) in E'; [congruence|].
      simpl. lia.
Qed.

Lemma find_app_None pat s t :
  Str.find pat (s ++ t) = None → Str.find pat s = None.
Proof.
  intros H. destruct (Str.find pat s) as [q|] eqn:E; [|done].
  by rewrite (find_app_Some pat s t q E) in H.
Qed.

Lemma starts_with_zero_mid t b :
  Str.starts_with "[0]" (t ++ "[0]" ++ b) = true →
  Str.starts_with "[0]" t = true ∨ t = "".
Proof.
  destruct t as [|c1 [|c2 [|c3 t]]]; simpl; auto.
Qed.

Lemma find_zero_mid a b :
  Str.find "[0]" a = None →
  Str.find "[0]" (a ++ "[0]" ++ b) = Some (String.length a).
Proof.
  induction a as [|c a IH]; [done|].
  intros Hf. change (String c a ++ "[0]" ++ b) with (String c (a ++ "[0]" ++ b)).
  cbn [Str.find] in *.
  destruct (Str.starts_with "[0]" (String c a)) eqn:E1; [done|].
  destruct (Str.starts_with "[0]" (String c (a ++ "[0]" ++ b))) eqn:E2.
  - apply (starts_with_zero_mid (String c a)) in E2 as [E2|E2]; congruence.
  - destruct (Str.find "[0]" a); [done|]. by rewrite IH.
Qed.

Lemma find_Some_split pat s pos :
  Str.find pat s = Some pos →
  ∃ a b, s = a ++ pat ++ b ∧ String.length a = pos.
Proof.
  revert pos; induction s as [|c s IH]; intros pos; simpl.
  - destruct (Str.starts_with pat "") eqn:E; [|done].
    intros [= <-]. apply starts_with_spec in E as [t E]. by exists "", t.
  - destruct (Str.starts_with pat (String c s)) eqn:E.
    + intros [= <-]. apply starts_with_spec in E as [t E]. by exists "", t.
    + destruct (Str.find pat s) as [q|]; [|done].
      intros [= <-]. destruct (IH q eq_refl) as (a & b & -> & <-).
      by exists (String c a), b.
Qed.

(** X4: an explicit zero index is dropped wherever it stands, as long as
    it is the first one: [a[0].b] is [a.b].  When the path holds no other
    zero index, all accessors treat the two spellings alike. *)
Theorem canonize_first_zero (a b : string) :
  (Str.find "[0]" (Str.remove_space a) = None →
   canonize (a ++ "[0]" ++ b) = Str.remove_space (a ++ b)) ∧
  (Str.find "[0]" (Str.remove_space (a ++ b)) = None →
   canonize (a ++ "[0]" ++ b) = canonize (a ++ b) ∧
   ∀ cfg, exists_ cfg (a ++ "[0]" ++ b) = exists_ cfg (a ++ b) ∧
          (∀ d, get_string cfg (a ++ "[0]" ++ b) d = get_string cfg (a ++ b) d) ∧
          childrenOf cfg (a ++ "[0]" ++ b) = childrenOf cfg (a ++ b)).
Proof.
  assert (H1 : Str.find "[0]" (Str.remove_space a) = None →
               canonize (a ++ "[0]" ++ b) = Str.remove_space (a ++ b)).
  { intros Hf. unfold canonize. rewrite !remove_space_app.
    change (Str.remove_space "[0]") with "[0]".
    by rewrite (find_zero_mid _ _ Hf), erase_app. }
  split; [done|]. intros Hf.
  assert (E : canonize (a ++ "[0]" ++ b) = canonize (a ++ b)).
  { rewrite H1.
    - unfold canonize. by rewrite Hf, erase_0_0.
    - rewrite remove_space_app in Hf. by apply find_app_None in Hf. }
  split; [done|]. intros cfg.
  unfold get_string, exists_, childrenOf. rewrite E. by repeat split.
Qed.

Lemma canonize_first_zero_witness :
  canonize ("Level0" ++ "[0]" ++ ".Level1 :name") = "Level0.Level1:name" ∧
  canonize ("Level0" ++ "[0]" ++ ".Level1 :name")
  = canonize ("Level0" ++ ".Level1 :name").
Proof.
  split.
  - apply (proj1 (canonize_first_zero "Level0" ".Level1 :name")). reflexivity.
  - apply (proj2 (canonize_first_zero "Level0" ".Level1 :name")). reflexivity.
Defined.

Lemma remove_space_length s :
  String.length (Str.remove_space s) ≤ String.length s.
Proof.
  induction s as [|c s IH]; simpl; [done|].
  destruct (Str.isspace c); simpl; lia.
Qed.

(** X5: a canonical path holds no whitespace and is never longer than
    the path given.  It is the path without its whitespace when that
    holds no [[0]], and else the path without its whitespace and without
    the first [[0]], before which none is left. *)
Theorem canonize_shape (p : string) :
  spaceless (canonize p) ∧
  String.length (canonize p) ≤ String.length p ∧
  match Str.find "[0]" (Str.remove_space p) with
  | None => canonize p = Str.remove_space p
  | Some pos =>
      ∃ a b, Str.remove_space p = a ++ "[0]" ++ b ∧
             String.length a = pos ∧
             Str.find "[0]" a = None ∧
             canonize p = a ++ b
  end.
Proof.
  split; [apply canonize_spaceless|].
  assert (Hcases :
    match Str.find "[0]" (Str.remove_space p) with
    | None => canonize p = Str.remove_space p
    | Some pos =>
        ∃ a b, Str.remove_space p = a ++ "[0]" ++ b ∧
               String.length a = pos ∧
               Str.find "[0]" a = None ∧
               canonize p = a ++ b
    end).
  { unfold canonize.
    destruct (Str.find "[0]" (Str.remove_space p)) as [pos|] eqn:Hf;
      [|apply erase_0_0].
    destruct (find_Some_split _ _ _ Hf) as (a & b & Hs & Hl).
    exists a, b. split; [done|]. split; [done|]. split.
    - destruct (Str.find "[0]" a) as [q|] eqn:Ea; [|done]. exfalso.
      pose proof (find_Some_length _ _ _ Ea) as Hq. simpl in Hq.
      rewrite Hs, (find_app_Some _ a _ q Ea) in Hf.
      injection Hf as <-. lia.
    - by rewrite Hs, <- Hl, erase_app. }
  split; [|done].
  pose proof (remove_space_length p) as Hl.
  destruct (Str.find "[0]" (Str.remove_space p)) as [pos|].
  - destruct Hcases as (a & b & Hs & _ & _ & ->).
    rewrite Hs, !sapp_length in Hl. rewrite sapp_length. lia.
  - by rewrite Hcases.
Qed.

(** ** The fields of a vector *)

Lemma getline_spec delim s :
  has_char delim (getline delim s).1 = false ∧
  (has_char delim s = true →
   s = (getline delim s).1 ++ String delim (getline delim s).2) ∧
  (has_char delim s = false → getline delim s = (s, "")).
Proof.
  induction s as [|c s (IH1 & IH2 & IH3)]; [done|].
  cbn [getline has_char].
  destruct (Ascii.eqb c delim) eqn:Hc.
  - apply Ascii.eqb_eq in Hc as ->. by repeat split.
  - destruct (getline delim s) as [f rest]. cbn [fst snd orb] in *.
    cbn [has_char]. rewrite Hc. cbn [orb]. split; [done|]. split.
    + intros H. rewrite (IH2 H) at 1. done.
    + intros H. specialize (IH3 H). by injection IH3 as -> ->.
Qed.

Lemma ends_with_comma_app a b :
  b ≠ "" → ends_with_comma (a ++ b) = ends_with_comma b.
Proof.
  intros Hb. induction a as [|c a IH]; [done|].
  change (String c a ++ b) with (String c (a ++ b)).
  cbn [ends_with_comma]. rewrite IH.
  destruct (a ++ b) eqn:E; [|done].
  destruct a; [|done]. simpl in E. congruence.
Qed.

Lemma ends_with_comma_has s : ends_with_comma s = true → has_char "," s = true.
Proof.
  induction s as [|c s IH]; [done|]. cbn [ends_with_comma has_char].
  destruct s as [|c' s]; [by intros ->|].
  intros H. by rewrite (IH H), orb_true_r.
Qed.

Lemma split_nonempty s : s ≠ "" → split s ≠ [].
Proof. intros Hs. by rewrite (split_step s Hs). Qed.

Lemma count_char_field a t :
  has_char "," a = false → count_char "," (a ++ t) = count_char "," t.
Proof.
  induction a as [|x a IH]; [done|]. simpl.
  intros [-> H]%orb_false_elim. by rewrite IH.
Qed.

(** The properties of [split], by induction on the length of the text. *)
Lemma split_facts n : ∀ s, String.length s ≤ n →
  Forall (λ f, has_char "," f = false) (split s) ∧
  s = String.concat "," (split s) ++ (if ends_with_comma s then "," else "") ∧
  List.length (split s)
  = count_char "," s + (if ends_with_comma s then 0 else
                        match s with EmptyString => 0 | _ => 1 end).
Proof.
  induction n as [|n IH]; intros s Hn.
  { destruct s; [|simpl in Hn; lia]. by repeat split. }
  destruct (decide (s = "")) as [->|Hw]; [by repeat split|].
  rewrite (split_step s Hw).
  destruct (getline_spec "," s) as (Hf & Hcomma & Hnone).
  assert (Hlen : String.length (getline "," s).2 < String.length s).
  { destruct s as [|c s]; [done|].
    pose proof (getline_snd_length "," c s).
    change (String.length (String c s)) with (S (String.length s)). lia. }
  destruct (getline "," s) as [f rest] eqn:Eg. cbn [fst snd] in *.
  destruct (IH rest) as (IH1 & IH2 & IH3); [lia|].
  assert (Hone : match s with EmptyString => 0 | _ => 1 end = 1)
    by by destruct s.
  rewrite Hone. clear Hone.
  destruct (has_char "," s) eqn:Ec.
  - specialize (Hcomma eq_refl). split; [by constructor|].
    assert (Hcnt : count_char "," s = S (count_char "," rest)).
    { rewrite Hcomma. by rewrite count_char_field. }
    destruct (decide (rest = "")) as [->|Hr].
    + assert (He : ends_with_comma s = true).
      { rewrite Hcomma. by rewrite ends_with_comma_app. }
      rewrite He, Hcnt. change (split "") with (@nil string).
      split; [by rewrite Hcomma at 1|done].
    + assert (He : ends_with_comma s = ends_with_comma rest).
      { rewrite Hcomma. change (f ++ String "," rest) with (f ++ "," ++ rest).
        by rewrite !ends_with_comma_app by (done || by destruct rest). }
      rewrite He, Hcnt. pose proof (split_nonempty rest Hr) as Hs. split.
      * destruct (split rest) as [|f' fs] eqn:Es; [done|].
        rewrite Hcomma at 1. rewrite IH2 at 1.
        cbn [String.concat]. by rewrite !sapp_assoc.
      * cbn [List.length]. rewrite IH3.
        destruct (ends_with_comma rest); [lia|]. destruct rest; [done|lia].
  - specialize (Hnone eq_refl). injection Hnone as -> ->.
    change (split "") with (@nil string). split; [by repeat constructor|].
    assert (He : ends_with_comma s = false).
    { destruct (ends_with_comma s) eqn:E; [|done].
      apply ends_with_comma_has in E. congruence. }
    rewrite He. simpl. rewrite sapp_nil_r. split; [done|].
    pose proof (count_char_field s "" Ec) as Hc. rewrite sapp_nil_r in Hc.
    by rewrite Hc.
Qed.

(** X6: the fields [getVector] converts hold no comma; joined by commas
    they give back the text, but for one trailing comma, which ends the
    last field and opens no new one.  So a text has one field per comma,
    and one more unless it is empty or ends in a comma; an entry with an
    empty text gives the empty vector, not the default. *)
Theorem split_fields (s : string) :
  Forall (λ f, has_char "," f = false) (split s) ∧
  s = String.concat "," (split s) ++ (if ends_with_comma s then "," else "") ∧
  List.length (split s)
  = count_char "," s + (if ends_with_comma s then 0 else
                        match s with EmptyString => 0 | _ => 1 end) ∧
  (∀ T (conv : string → T) cfg p dv val,
     mNodes cfg !! canonize p = Some val →
     ∃ l, getVector conv cfg p dv = Some l ∧
          List.length l = List.length (split (Str.remove_space val)) ∧
          (Str.remove_space val = "" → l = [])).
Proof.
  destruct (split_facts (String.length s) s (le_n _)) as (H1 & H2 & H3).
  split; [done|]. split; [done|]. split; [done|].
  intros T conv cfg p dv val Hv.
  unfold getVector, exists_, count, at_. rewrite Hv. simpl.
  rewrite fold_left_push. exists (conv <$> split (Str.remove_space val)).
  split; [done|]. rewrite length_fmap. split; [done|]. by intros ->.
Qed.

(** ** Vectors of integers *)

Lemma split_concat (fields : list string) :
  Forall (λ f, has_char "," f = false ∧ f ≠ "") fields →
  split (String.concat "," fields) = fields.
Proof.
  induction 1 as [|f fs [Hc Hn] Hfs IH]; [done|].
  destruct fs as [|f2 fs].
  - simpl. by apply split_last.
  - change (String.concat "," (f :: f2 :: fs))
      with (f ++ String "," (String.concat "," (f2 :: fs))).
    by rewrite split_field, IH.
Qed.

Lemma remove_space_concat (fields : list string) :
  Forall spaceless fields →
  Str.remove_space (String.concat ", " fields) = String.concat "," fields.
Proof.
  induction 1 as [|f fs Hf Hfs IH]; [done|].
  destruct fs as [|f2 fs].
  - simpl. by apply remove_space_id.
  - change (String.concat ", " (f :: f2 :: fs))
      with (f ++ ", " ++ String.concat ", " (f2 :: fs)).
    rewrite !remove_space_app, IH, (remove_space_id f Hf). done.
Qed.

Lemma has_char_insert_int c v :
  Stream.digit c = None → c ≠ "-"%char →
  has_char c (Stream.insert_int v) = false.
Proof.
  intros Hd Hm. unfold Stream.insert_int.
  assert (H0 : Ascii.eqb "0" c = false).
  { apply Ascii.eqb_neq. intros <-. discriminate. }
  assert (Hu : ∀ d, has_char c (NilZero.string_of_uint d) = false).
  { intros d. unfold NilZero.string_of_uint.
    destruct d; try apply (has_char_digits c _ Hd).
    simpl. by rewrite H0. }
  destruct (Z.to_int v) as [d|d]; simpl; [apply Hu|].
  rewrite Hu, orb_false_r. apply Ascii.eqb_neq. congruence.
Qed.

Lemma isspace_not_digit c :
  Str.isspace c = true → Stream.digit c = None ∧ c ≠ "-"%char.
Proof.
  intros Hs. split.
  - unfold Str.isspace, Stream.digit in *.
    destruct (Nat.leb_spec 48 (nat_of_ascii c)); [|done].
    destruct (Nat.leb_spec (nat_of_ascii c) 57); [|done]. exfalso.
    apply orb_true_iff in Hs as [Hs%Nat.eqb_eq|[H1 H2%Nat.leb_le]%andb_true_iff];
      lia.
  - by intros ->.
Qed.

Lemma spaceless_insert_int v : spaceless (Stream.insert_int v).
Proof.
  assert (H : ∀ s, (∀ c, Str.isspace c = true → has_char c s = false) →
                   spaceless s).
  { induction s as [|a s IH]; intros Hs; [done|]. split.
    - destruct (Str.isspace a) eqn:E; [|done].
      specialize (Hs a E). simpl in Hs. by rewrite Ascii.eqb_refl in Hs.
    - apply IH. intros c Hc. specialize (Hs c Hc). simpl in Hs.
      by apply orb_false_elim in Hs as [_ ?]. }
  apply H. intros c [Hd Hm]%isspace_not_digit. by apply has_char_insert_int.
Qed.

Lemma insert_int_nonempty v : Stream.insert_int v ≠ "".
Proof.
  unfold Stream.insert_int. destruct v as [|q|q]; [done| |done].
  simpl. unfold NilZero.string_of_uint.
  destruct (string_of_uint_head (Pos.to_uint q)) as (c & s & E & _).
  - intros E. pose proof (DecimalPos.Unsigned.of_to q) as H.
    rewrite E in H. discriminate.
  - destruct (Pos.to_uint q); [done|..]; by rewrite E.
Qed.

(** X7: [getVector<int>] reads back every list of [int] written as
    decimal numbers with a comma and a space between them; the empty text
    is the empty list. *)
Theorem getVector_ints (rv : Z) cfg p (dv vs : list Z) :
  Forall (λ v, Stream.INT_MIN ≤ v ≤ Stream.INT_MAX)%Z vs →
  mNodes cfg !! canonize p = Some (String.concat ", " (convertTo <$> vs)) →
  getVector (convert rv) cfg p dv = Some vs.
Proof.
  intros Hvs Hm. unfold getVector, exists_, count, at_. rewrite Hm. simpl.
  rewrite fold_left_push. simpl. f_equal.
  rewrite remove_space_concat.
  2: { apply Forall_fmap, Forall_forall. intros v _.
       apply spaceless_insert_int. }
  rewrite split_concat.
  2: { apply Forall_fmap, Forall_forall. intros v _. split.
       - by apply has_char_insert_int.
       - apply insert_int_nonempty. }
  rewrite <- list_fmap_compose. clear Hm.
  induction Hvs as [|v vs Hv _ IH]; [done|].
  rewrite fmap_cons, IH. f_equal.
  by apply (convert_convertTo_int rv).
Qed.

Lemma getVector_ints_witness :
  getVector (convert (T:=Z) 0%Z)
    (set_string TXmlConfig_new "Histogram:bins-x"
       (String.concat ", " (convertTo <$> [50; 0; -1]%Z)))
    "Histogram:bins-x" [] = Some [50; 0; -1]%Z.
Proof.
  apply getVector_ints; [|reflexivity].
  repeat constructor; by vm_compute.
Defined.

Lemma split_fields_witness :
  ∃ l, getVector (convert (T:=Z) 0%Z)
         (set_string TXmlConfig_new "Histogram:bins-x" "  ")
         "Histogram:bins-x" [1]%Z = Some l ∧ l = [].
Proof.
  destruct (proj2 (proj2 (proj2 (split_fields "")))
              Z (convert 0%Z)
              (set_string TXmlConfig_new "Histogram:bins-x" "  ")
              "Histogram:bins-x" [1]%Z "  " eq_refl) as (l & Hl & _ & He).
  exists l. split; [exact Hl|]. apply He. reflexivity.
Defined.

(** ** What [convert<int>] reads from a text *)

Lemma skipws_app_blank w s :
  Stream.skipws w = "" → Stream.skipws (w ++ s) = Stream.skipws s.
Proof.
  induction w as [|c w IH]; [done|]. simpl.
  destruct (Str.isspace c); [exact IH|done].
Qed.

Lemma skipws_app s t :
  Stream.skipws s ≠ "" → Stream.skipws (s ++ t) = Stream.skipws s ++ t.
Proof.
  induction s as [|c s IH]; [done|]. simpl.
  destruct (Str.isspace c); [exact IH|done].
Qed.

Lemma digits_app_stop s c t acc seen :
  Stream.digit c = None →
  Stream.digits (s ++ String c t) acc seen = Stream.digits s acc seen.
Proof.
  intros Hc. revert acc seen.
  induction s as [|a s IH]; intros acc seen; simpl.
  - by rewrite Hc.
  - destruct (Stream.digit a); [apply IH|done].
Qed.

Lemma scan_integer_app_stop s c t :
  Stream.digit c = None → s ≠ "" →
  Stream.scan_integer (s ++ String c t) = Stream.scan_integer s.
Proof.
  intros Hc Hs. destruct s as [|a s]; [done|].
  change (String a s ++ String c t) with (String a (s ++ String c t)).
  unfold Stream.scan_integer.
  destruct (Ascii.eqb_spec a "-") as [->|Hm].
  { by rewrite digits_app_stop. }
  destruct (Ascii.eqb_spec a "+") as [->|Hp].
  { by rewrite digits_app_stop. }
  rewrite <- (digits_app_stop (String a s) c t 0 false Hc).
  change (String a s ++ String c t) with (String a (s ++ String c t)).
  destruct a as [[] [] [] [] [] [] [] []]; try reflexivity; congruence.
Qed.

Lemma clamp_range v : (Stream.INT_MIN ≤ Stream.clamp v ≤ Stream.INT_MAX)%Z.
Proof.
  unfold Stream.clamp.
  destruct (Z.ltb_spec v Stream.INT_MIN); [by vm_compute|].
  destruct (Z.ltb_spec Stream.INT_MAX v); [by vm_compute|]. lia.
Qed.

(** X8: how [convert<int>] reads a text.  A text of white space only
    gives the content of the uninitialised local, white space in front of
    the number is ignored, the first character that is no digit ends the
    number and nothing after it is read, a text that does not start with
    a number gives 0, and every other result lies in the range of
    [int]. *)
Theorem convert_int_text (rv : Z) :
  (∀ s, Stream.skipws s = "" → convert rv s = rv) ∧
  (∀ w s, Stream.skipws w = "" → convert rv (w ++ s) = convert rv s) ∧
  (∀ s c t, Stream.digit c = None → Stream.skipws s ≠ "" →
     convert rv (s ++ String c t) = convert rv s) ∧
  (∀ v c t, Stream.digit c = None →
     convert rv (convertTo v ++ String c t) = Stream.clamp v) ∧
  (∀ c t, Str.isspace c = false → Stream.digit c = None →
     c ≠ "-"%char → c ≠ "+"%char → convert rv (String c t) = 0%Z) ∧
  (∀ s, Stream.skipws s ≠ "" →
     (Stream.INT_MIN ≤ convert rv s ≤ Stream.INT_MAX)%Z).
Proof.
  assert (Hstop : ∀ s c t, Stream.digit c = None → Stream.skipws s ≠ "" →
            Stream.extract_int rv (s ++ String c t) = Stream.extract_int rv s).
  { intros s c t Hc Hs. unfold Stream.extract_int.
    rewrite skipws_app by done.
    pose proof (scan_integer_app_stop _ c t Hc Hs) as E.
    destruct (Stream.skipws s) as [|a s']; [done|].
    change (String a s' ++ String c t) with (String a (s' ++ String c t)) in *.
    cbv beta iota. by rewrite E. }
  unfold convert. simpl.
  split; [|split; [|split; [|split; [|split]]]].
  - intros s Hs. unfold Stream.extract_int. by rewrite Hs.
  - intros w s Hw. unfold Stream.extract_int. by rewrite skipws_app_blank.
  - exact Hstop.
  - intros v c t Hc. unfold convertTo. simpl. rewrite Hstop; [|done|].
    + apply extract_insert_int.
    + pose proof (spaceless_insert_int v) as Hs.
      pose proof (insert_int_nonempty v) as Hn.
      destruct (Stream.insert_int v) as [|a s]; [done|].
      simpl. destruct Hs as [-> _]. done.
  - intros c t Hs Hd Hm Hp. unfold Stream.extract_int.
    cbn [Stream.skipws]. rewrite Hs.
    assert (E : Stream.scan_integer (String c t) = None).
    { unfold Stream.scan_integer.
      transitivity (Stream.digits (String c t) 0 false).
      - destruct c as [[] [] [] [] [] [] [] []]; try reflexivity; congruence.
      - simpl. by rewrite Hd. }
    by rewrite E.
  - intros s Hs. unfold Stream.extract_int.
    destruct (Stream.skipws s) as [|a s'] eqn:E; [done|].
    destruct (Stream.scan_integer (String a s')).
    + apply clamp_range.
    + by vm_compute.
Qed.

Lemma convert_int_text_witness :
  convert (T:=Z) 7%Z "  " = 7%Z ∧
  convert (T:=Z) 7%Z ("  " ++ "42") = convert (T:=Z) 7%Z "42" ∧
  convert (T:=Z) 7%Z (" 3" ++ String "." "75") = convert (T:=Z) 7%Z " 3" ∧
  convert (T:=Z) 7%Z (convertTo 12%Z ++ String "a" "bc") = Stream.clamp 12 ∧
  convert (T:=Z) 7%Z (String "x" "1") = 0%Z ∧
  (Stream.INT_MIN ≤ convert (T:=Z) 7%Z "99999999999" ≤ Stream.INT_MAX)%Z.
Proof.
  destruct (convert_int_text 7%Z) as (H1 & H2 & H3 & H4 & H5 & H6).
  split; [by apply H1|]. split; [by apply H2|]. split; [by apply H3|].
  split; [by apply H4|]. split; [by apply H5|]. by apply H6.
Defined.

(** ** One type written, another read *)

Lemma insert_int_not_bool v :
  String.eqb (Stream.insert_int v) "false" = false ∧
  String.eqb (Stream.insert_int v) "true" = false.
Proof.
  split; apply String.eqb_neq; intros E.
  - pose proof (has_char_insert_int "f" v eq_refl) as H.
    rewrite E in H. by discriminate H.
  - pose proof (has_char_insert_int "t" v eq_refl) as H.
    rewrite E in H. by discriminate H.
Qed.

Lemma clamp_zero v : (Stream.clamp v =? 0)%Z = (v =? 0)%Z.
Proof.
  unfold Stream.clamp, Stream.INT_MIN, Stream.INT_MAX.
  destruct (Z.ltb_spec v (- 2 ^ 31)), (Z.ltb_spec (2 ^ 31 - 1) v);
    destruct (Z.eqb_spec v 0); try done; lia.
Qed.

(** X9: the map holds texts, so an entry written with one type can be
    read with another.  An [int] read as [bool] is true when it is not
    zero; a [bool] read as [int] is 0 for both values; an [int] read as
    text is its decimal notation; a text read as [int] or [bool] goes
    through the conversion whatever it holds, so the default is never
    returned for a stored entry, and white space only gives back the
    content of the uninitialised local of [convert]. *)
Theorem get_across_types (rv : Z) cfg p :
  (∀ v d, get_bool rv (set_int cfg p v) p d = Some (negb (v =? 0)%Z)) ∧
  (∀ b d, get_int rv (set_bool cfg p b) p d = Some 0%Z) ∧
  (∀ v d, get_string (set_int cfg p v) p d = Some (convertTo v)) ∧
  (∀ text d d',
     get_int rv (set_string cfg p text) p d = Some (convert rv text) ∧
     get_bool rv (set_string cfg p text) p d' = Some (convert_bool rv text)) ∧
  (∀ text d d', Stream.skipws text = "" →
     get_int rv (set_string cfg p text) p d = Some rv ∧
     get_bool rv (set_string cfg p text) p d' = Some (negb (rv =? 0)%Z)).
Proof.
  split; [|split; [|split; [|split]]].
  - intros v d. unfold get_bool, set_int, set. rewrite get_insert.
    unfold convert_bool, convertTo. simpl.
    destruct (insert_int_not_bool v) as [-> ->].
    unfold convert. simpl. by rewrite extract_insert_int, clamp_zero.
  - intros b d. unfold get_int, set_bool. rewrite get_insert. by destruct b.
  - intros v d. rewrite get_string_get. unfold set_int, set.
    by rewrite get_insert.
  - intros text d d'. unfold get_int, get_bool, set_string.
    by rewrite !get_insert.
  - intros text d d' Hb. unfold get_int, get_bool, set_string.
    rewrite !get_insert.
    assert (E : convert rv text = rv).
    { unfold convert. simpl. unfold Stream.extract_int. by rewrite Hb. }
    rewrite E. split; [done|]. f_equal. unfold convert_bool. rewrite E.
    destruct (String.eqb_spec text "false") as [->|_]; [done|].
    destruct (String.eqb_spec text "true") as [->|_]; done.
Qed.

Lemma get_across_types_witness :
  get_int 7%Z (set_string TXmlConfig_new "a:b" " ") "a:b" 0%Z = Some 7%Z ∧
  get_bool 7%Z (set_string TXmlConfig_new "a:b" " ") "a:b" false = Some true.
Proof.
  apply (proj2 (proj2 (proj2 (proj2
           (get_across_types 7%Z TXmlConfig_new "a:b"))))).
  reflexivity.
Defined.

(** ** The size of the map of a document *)

Lemma mapAttrs_size key attrs m :
  size m ≤ size (mapAttrs key attrs m) ≤ size m + List.length attrs.
Proof.
  unfold mapAttrs. revert m.
  induction attrs as [|a attrs IH]; intros m; simpl; [lia|].
  specialize (IH (<[key ++ attrDelim ++ GetAttrName a
                    := default valDNE (GetAttrValue a)]> m)).
  rewrite map_size_insert in IH.
  destruct (m !! (key ++ attrDelim ++ GetAttrName a)); simpl in IH; lia.
Qed.

Lemma mapFile_size_bounds node : ∀ level path m,
  size m + count_nodes node ≤ size (mapFile node level path m)
    ≤ size m + count_nodes node + count_attrs node.
Proof.
  induction node as [name content attrs children IH] using XMLNode_tree_ind.
  intros level path m. rewrite mapFile_unfold. cbv zeta.
  set (key := node_key m (bare_path level path name)).
  pose proof (mapAttrs_size key attrs (<[key := default valDNE content]> m))
    as Ha.
  rewrite map_size_insert_None in Ha by apply node_key_free.
  cbn [count_nodes count_attrs].
  revert Ha. generalize (mapAttrs key attrs (<[key := default valDNE content]> m)).
  enough (Hfold : ∀ m' : gmap string string,
    size m' + list_sum (map count_nodes children)
      ≤ size (fold_left (λ m child, mapFile child (level + 1) key m) children m')
      ≤ size m' + list_sum (map count_nodes children)
          + list_sum (map count_attrs children)).
  { intros m' Ha. specialize (Hfold m'). lia. }
  induction IH as [|c cs Hc _ IHcs]; intros m'; simpl; [lia|].
  specialize (IHcs (mapFile c (level + 1) key m')).
  specialize (Hc (level + 1)%Z key m'). lia.
Qed.

(** X10: what flattening does to the map for every document, whatever
    its names.  No key is removed; an entry whose key has no [:] keeps
    its value; every element adds an entry of its own, so the size grows
    by at least the number of elements and at most by that and the number
    of attributes. *)
Theorem flatten_grows :
  (∀ node level path m k,
     is_Some (m !! k) → is_Some (mapFile node level path m !! k)) ∧
  (∀ node level path m k v,
     m !! k = Some v → has_char ":" k = false →
     mapFile node level path m !! k = Some v) ∧
  (∀ node level path m,
     size m + count_nodes node ≤ size (mapFile node level path m)
       ≤ size m + count_nodes node + count_attrs node) ∧
  (∀ root_node,
     count_nodes root_node ≤ size (flatten root_node)
       ≤ count_nodes root_node + count_attrs root_node).
Proof.
  split; [|split; [|split]].
  - intros. by apply mapFile_is_Some.
  - intros. by apply mapFile_lookup_node.
  - apply mapFile_size_bounds.
  - intros root_node. unfold flatten.
    pose proof (mapFile_size_bounds root_node 1 "" ∅) as H.
    by rewrite map_size_empty in H.
Qed.

Lemma flatten_grows_witness :
  is_Some (mapFile ex_items 1 "" {["Parent.Item" := "z"]} !! "Parent.Item") ∧
  mapFile ex_items 1 "" {["Parent.Item" := "z"]} !! "Parent.Item" = Some "z".
Proof.
  destruct flatten_grows as (H1 & H2 & _). split.
  - apply H1. exists "z". reflexivity.
  - apply H2; reflexivity.
Defined.

Lemma bare_path_no_colon level path name :
  has_char ":" path = false → has_char ":" name = false →
  has_char ":" (bare_path level path name) = false.
Proof.
  intros Hp Hn. unfold bare_path, pathDelim.
  destruct (String.eqb path ""), (1 <? level)%Z;
    rewrite ?has_char_app, ?Hp, ?Hn; done.
Qed.

Lemma node_key_no_colon m path :
  has_char ":" path = false → has_char ":" (node_key m path) = false.
Proof.
  intros Hp. unfold node_key. destruct (count m path =? 0); [done|].
  by rewrite has_char_app, Hp, has_char_index_suffix.
Qed.

Lemma attr_key_inj P a K b :
  has_char ":" P = false → has_char ":" K = false →
  P ++ attrDelim ++ a = K ++ attrDelim ++ b → P = K ∧ a = b.
Proof. intros HP HK E. by apply (has_char_split_inj ":" P K a b). Qed.

Lemma attrs_owned_insert_node K v m :
  has_char ":" K = false → attrs_owned m → attrs_owned (<[K := v]> m).
Proof.
  intros HK Ho P a HP. rewrite !lookup_insert.
  destruct (decide (K = P ++ attrDelim ++ a)) as [E|_].
  { rewrite E, has_char_app in HK. unfold attrDelim in HK. simpl in HK.
    by rewrite orb_true_r in HK. }
  intros Hs. case_decide; [eauto|]. by apply (Ho P a).
Qed.

Lemma mapAttrs_fresh K attrs : ∀ m,
  has_char ":" K = false → NoDup (GetAttrName <$> attrs) →
  (∀ a, a ∈ attrs → m !! (K ++ attrDelim ++ GetAttrName a) = None) →
  attrs_owned m → is_Some (m !! K) →
  size (mapAttrs K attrs m) = size m + List.length attrs ∧
  attrs_owned (mapAttrs K attrs m).
Proof.
  unfold mapAttrs.
  induction attrs as [|b attrs IH]; intros m HK Hnd Hfree Ho HmK; simpl.
  { split; [lia|done]. }
  cbn [fmap list_fmap] in Hnd. apply NoDup_cons in Hnd as [Hb Hnd].
  set (m1 := <[K ++ attrDelim ++ GetAttrName b
               := default valDNE (GetAttrValue b)]> m).
  destruct (IH m1) as [Hsize Howned]; [done|done| | | |].
  - intros a Ha. unfold m1. rewrite lookup_insert_ne.
    + apply Hfree. by right.
    + intros [_ E]%attr_key_inj; [|done..]. apply Hb. rewrite E.
      by apply list_elem_of_fmap_2.
  - intros P a HP. unfold m1. rewrite !lookup_insert.
    destruct (decide (K ++ attrDelim ++ GetAttrName b = P ++ attrDelim ++ a))
      as [E|_].
    + apply attr_key_inj in E as [<- _]; [|done..]. intros _.
      case_decide; eauto.
    + intros Hs. case_decide; [eauto|]. by apply (Ho P a).
  - unfold m1. rewrite lookup_insert. case_decide; eauto.
  - split; [|exact Howned]. etrans; [exact Hsize|]. unfold m1.
    rewrite map_size_insert_None; [lia|]. apply Hfree. by left.
Qed.

Lemma mapFile_exact node : ∀ level path m,
  has_char ":" (bare_path level path (GetNodeName node)) = false →
  colon_free_below node = true → distinct_attrs node = true →
  attrs_owned m →
  size (mapFile node level path m)
    = size m + count_nodes node + count_attrs node ∧
  attrs_owned (mapFile node level path m).
Proof.
  induction node as [name content attrs children IH] using XMLNode_tree_ind.
  intros level path m Hbare Hcf Hda Ho.
  cbn [GetNodeName colon_free_below distinct_attrs] in *.
  apply andb_true_iff in Hda as [Hnd%bool_decide_eq_true Hda].
  rewrite mapFile_unfold. cbv zeta.
  set (K := node_key m (bare_path level path name)).
  assert (HK : has_char ":" K = false) by by apply node_key_no_colon.
  assert (HmK : m !! K = None) by apply node_key_free.
  destruct (mapAttrs_fresh K attrs (<[K := default valDNE content]> m))
    as [Hsize Howned]; [done|done| | | |].
  { intros a _. rewrite lookup_insert_ne.
    - destruct (m !! (K ++ attrDelim ++ GetAttrName a)) eqn:E; [|done].
      assert (is_Some (m !! K)) as [? ?] by (apply (Ho K (GetAttrName a)); eauto).
      congruence.
    - intros E. rewrite E, has_char_app in HK. unfold attrDelim in HK.
      simpl in HK. by rewrite orb_true_r in HK. }
  { by apply attrs_owned_insert_node. }
  { rewrite lookup_insert_eq. eauto. }
  rewrite map_size_insert_None in Hsize by done.
  cbn [count_nodes count_attrs].
  revert Hsize Howned.
  generalize (mapAttrs K attrs (<[K := default valDNE content]> m)).
  enough (Hfold : ∀ m' : gmap string string, attrs_owned m' →
    size (fold_left (λ m child, mapFile child (level + 1) K m) children m')
      = size m' + list_sum (map count_nodes children)
          + list_sum (map count_attrs children) ∧
    attrs_owned
      (fold_left (λ m child, mapFile child (level + 1) K m) children m')).
  { intros m' Hsize Howned. destruct (Hfold m' Howned) as [-> ?].
    split; [lia|done]. }
  clear Hnd. revert Hcf Hda.
  induction IH as [|c cs Hc _ IHcs]; intros Hcf Hda m' Ho'; simpl.
  { split; [lia|done]. }
  cbn [forallb] in Hcf, Hda.
  apply andb_true_iff in Hcf as [[Hn%negb_true_iff Hcfc]%andb_true_iff Hcf].
  apply andb_true_iff in Hda as [Hdac Hda].
  destruct (Hc (level + 1)%Z K m') as [Hs1 Ho1]; [|done..|].
  { by apply bare_path_no_colon. }
  destruct (IHcs Hcf Hda _ Ho1) as [Hs2 Ho2].
  split; [lia|done].
Qed.

(** X11: in a document whose element names hold no [:] and whose
    elements have attributes of different names, nothing is overwritten:
    the map has one entry for every element and one for every
    attribute. *)
Theorem flatten_size root_node :
  colon_free_below root_node = true → distinct_attrs root_node = true →
  size (flatten root_node) = count_nodes root_node + count_attrs root_node.
Proof.
  intros Hcf Hda. unfold flatten.
  destruct (mapFile_exact root_node 1 "" ∅) as [-> _]; [|done..| |].
  - done.
  - intros P a _ [v Hv]. by rewrite lookup_empty in Hv.
  - by rewrite map_size_empty.
Qed.

Lemma flatten_size_witness :
  size (flatten ex_items) = count_nodes ex_items + count_attrs ex_items.
Proof. apply flatten_size; reflexivity. Defined.

(** ** All the entries of a document *)

Lemma spec_entries_unfold key level name content attrs children :
  spec_entries key level (mkNode name content attrs children) =
  (key, default valDNE content) ::
  (attr_entries key attrs ++ spec_entry_siblings key (level + 1) [] children)%list.
Proof.
  cbn [spec_entries]. do 2 f_equal. generalize (@nil string) as before.
  induction children as [|c cs IH]; intros before; [done|].
  cbn [spec_entry_siblings]. by rewrite <- IH.
Qed.

Lemma adds_app m m1 m2 new1 new2 :
  adds m m1 new1 → adds m1 m2 new2 → adds m m2 (new1 ++ new2)%list.
Proof.
  intros H1 H2 k v. rewrite (H2 k v), (H1 k v), elem_of_app. tauto.
Qed.

Lemma is_delim_spec d : is_delim d = true ↔ d = "."%char ∨ d = ":"%char.
Proof.
  unfold is_delim. rewrite orb_true_iff, !Ascii.eqb_eq. done.
Qed.

Lemma has_char_delim d s :
  is_delim d = true → has_char "." s = false → has_char ":" s = false →
  has_char d s = false.
Proof. by intros [-> | ->]%is_delim_spec. Qed.

(** Two texts free of [.] and [:], each followed by one of them, are one
    text when the whole is the same. *)
Lemma delim_split_inj a a' d d' b b' :
  has_char "." a = false → has_char ":" a = false →
  has_char "." a' = false → has_char ":" a' = false →
  is_delim d = true → is_delim d' = true →
  a ++ String d b = a' ++ String d' b' → a = a'.
Proof.
  intros H1 H2 H1' H2' Hd Hd'.
  pose proof (has_char_delim d' a Hd' H1 H2) as Ha. clear H1 H2.
  pose proof (has_char_delim d a' Hd H1' H2') as Ha'. clear H1' H2'.
  revert a' Ha'. induction a as [|x a IH]; intros [|x' a'] Ha'; simpl in *.
  - done.
  - intros [= -> _]. by rewrite Ascii.eqb_refl in Ha'.
  - intros [= -> _]. by rewrite Ascii.eqb_refl in Ha.
  - apply orb_false_elim in Ha as [_ Ha]. apply orb_false_elim in Ha' as [_ Ha'].
    intros [= -> E]. f_equal. by apply IH.
Qed.

Lemma sibling_key_sub_inj P level n i n' i' d d' rest rest' :
  (1 < level)%Z → plain_name n = true → plain_name n' = true →
  is_delim d = true → is_delim d' = true →
  sibling_key P level n i ++ String d rest
    = sibling_key P level n' i' ++ String d' rest' →
  n = n' ∧ i = i'.
Proof.
  intros Hl Hn Hn' Hd Hd'. rewrite !sibling_key_segment, !sapp_assoc by done.
  intros E%(inj (String.append _)).
  apply delim_split_inj in E;
    [|by (apply segment_no_dot || apply segment_no_colon)..|done|done].
  by apply segment_inj in E.
Qed.

Lemma sibling_key_not_sub P level n i n' i' d rest :
  (1 < level)%Z → plain_name n' = true → is_delim d = true →
  sibling_key P level n i ++ String d rest ≠ sibling_key P level n' i'.
Proof.
  intros Hl Hn' Hd. rewrite !sibling_key_segment, sapp_assoc by done.
  intros E%(inj (String.append _)).
  apply (f_equal (has_char d)) in E.
  rewrite (has_char_delim d (segment n' i')) in E
    by (done || by (apply segment_no_dot || apply segment_no_colon)).
  rewrite has_char_app in E. simpl in E.
  by rewrite Ascii.eqb_refl, orb_true_r in E.
Qed.

(** Every key the rule gives within a subtree is the key of its top
    node, or that key with a [.] or a [:] and more. *)
Lemma spec_entries_shape c : ∀ K level k v,
  K ≠ "" → (0 < level)%Z → (k, v) ∈ spec_entries K level c →
  k = K ∨ ∃ d rest, is_delim d = true ∧ k = K ++ String d rest.
Proof.
  induction c as [name content attrs children IH] using XMLNode_tree_ind.
  intros K level k v HK Hl. rewrite spec_entries_unfold.
  intros [[= -> ->]|[Hin|Hin]%elem_of_app]%elem_of_cons; [by left|right..].
  { apply list_elem_of_fmap in Hin as (a & [= -> _] & _).
    by exists ":"%char, (GetAttrName a). }
  revert Hin. generalize (@nil string) as before.
  induction IH as [|c cs Hc _ IHcs]; intros before; cbn [spec_entry_siblings].
  - by intros ?%elem_of_nil.
  - intros [Hin|Hin]%elem_of_app; [|by eapply IHcs].
    rewrite sibling_key_segment, (child_prefix_dot K) in Hin by (done || lia).
    apply Hc in Hin as [->|(d & rest & Hd & ->)];
      [| |by apply sapp_nonempty_l, sapp_nonempty_l|lia].
    + exists "."%char. eexists. split; [done|]. by rewrite sapp_assoc.
    + exists "."%char. eexists. split; [done|]. by rewrite !sapp_assoc.
Qed.

Lemma mapAttrs_adds K attrs : ∀ m,
  NoDup (GetAttrName <$> attrs) →
  (∀ a, a ∈ attrs → m !! (K ++ attrDelim ++ GetAttrName a) = None) →
  adds m (mapAttrs K attrs m) (attr_entries K attrs).
Proof.
  unfold mapAttrs.
  induction attrs as [|b attrs IH]; intros m Hnd Hfree.
  { intros k v. simpl. rewrite elem_of_nil. tauto. }
  cbn [fmap list_fmap] in Hnd. apply NoDup_cons in Hnd as [Hb Hnd].
  assert (Hf : m !! (K ++ attrDelim ++ GetAttrName b) = None)
    by (apply Hfree; by left).
  assert (Hrest : ∀ a, a ∈ attrs →
            K ++ attrDelim ++ GetAttrName b ≠ K ++ attrDelim ++ GetAttrName a).
  { intros a Ha E%(inj (String.append K)). injection E as E.
    apply Hb. rewrite E. by apply list_elem_of_fmap_2. }
  cbn [fold_left]. cbv zeta.
  change (attr_entries K (b :: attrs))
    with ([((K ++ attrDelim ++ GetAttrName b)%string,
            default valDNE (GetAttrValue b))]
          ++ attr_entries K attrs)%list.
  revert Hf Hrest.
  generalize (K ++ attrDelim ++ GetAttrName b) as kb.
  generalize (default valDNE (GetAttrValue b)) as vb. intros vb kb Hf Hrest.
  apply (adds_app m (<[kb := vb]> m)).
  - intros k v. rewrite list_elem_of_singleton, lookup_insert.
    case_decide as Hd.
    + subst k. rewrite Hf.
      split; [intros [= <-]; by right|]. by intros [?|[= ->]].
    + split; [by left|]. intros [?|[= ? ?]]; [done|]. by subst.
  - apply IH; [done|]. intros a Ha. rewrite lookup_insert_ne.
    + apply Hfree. by right.
    + by apply Hrest.
Qed.

Lemma children_adds cs :
  Forall node_adds cs →
  ∀ before level P m,
    (1 < level)%Z →
    forallb (λ c, plain_name (GetNodeName c) && plain_below c) cs = true →
    forallb distinct_attrs cs = true →
    (∀ n j, plain_name n = true →
       is_Some (m !! sibling_key P level n j) ↔ j < occurrences n before) →
    (∀ n j d rest, plain_name n = true → is_delim d = true →
       is_Some (m !! (sibling_key P level n j ++ String d rest)) →
       j < occurrences n before) →
    adds m (fold_left (λ m c, mapFile c level P m) cs m)
      (spec_entry_siblings P level before cs).
Proof.
  induction 1 as [|c cs Hc _ IHcs];
    intros before level P m Hl Hplain Hda H1 H2.
  { intros k v. simpl. rewrite elem_of_nil. tauto. }
  cbn [forallb] in Hplain, Hda.
  apply andb_true_iff in Hplain as [[Hn Hb]%andb_true_iff Hplain].
  apply andb_true_iff in Hda as [Hdac Hda].
  cbn [fold_left spec_entry_siblings]. cbv zeta.
  set (n := GetNodeName c) in *. set (i := occurrences n before).
  set (K := sibling_key P level n i).
  assert (Hext : adds m (mapFile c level P m) (spec_entries K level c)).
  { apply Hc; auto.
    intros d rest Hd.
    destruct (m !! (sibling_key P level n i ++ String d rest)) eqn:E; [|done].
    exfalso. assert (i < i); [|lia]. apply (H2 n i d rest); eauto. }
  assert (Htop : mapFile c level P m !! K
                 = Some (default valDNE (GetNodeContent c))).
  { apply Hext. right. destruct c. rewrite spec_entries_unfold. by left. }
  apply adds_app with (mapFile c level P m); [done|].
  apply IHcs; auto.
  - intros n' j Hn'. rewrite occurrences_cons. split.
    + intros [v [Hv|Hin]%Hext].
      * assert (j < occurrences n' before) by (apply H1; eauto).
        case_decide; lia.
      * apply spec_entries_shape in Hin as [E|(d & rest & Hd & E)];
          [| |by apply sibling_key_nonempty|lia].
        -- apply sibling_key_inj in E as [-> ->]; [|done..].
           rewrite decide_True by done. fold i. lia.
        -- symmetry in E. by apply sibling_key_not_sub in E.
    + intros Hj. case_decide as Hd.
      * subst n'. destruct (decide (j = i)) as [->|]; [by eexists|].
        assert (is_Some (m !! sibling_key P level n j)) as [v Hv].
        { apply H1; [done|]. fold i. lia. }
        exists v. apply Hext; auto.
      * assert (is_Some (m !! sibling_key P level n' j)) as [v Hv]
          by by apply H1.
        exists v. apply Hext; auto.
  - intros n' j d rest Hn' Hd [v Hv]. rewrite occurrences_cons.
    apply Hext in Hv as [Hv|Hin].
    + assert (j < occurrences n' before) by (apply (H2 n' j d rest); eauto).
      case_decide; lia.
    + apply spec_entries_shape in Hin as [E|(d' & rest' & Hd' & E)];
        [| |by apply sibling_key_nonempty|lia].
      * by apply sibling_key_not_sub in E.
      * apply sibling_key_sub_inj in E as [-> ->]; [|done..].
        rewrite decide_True by done. fold i. lia.
Qed.

Lemma node_add c : node_adds c.
Proof.
  induction c as [name content attrs children IH] using XMLNode_tree_ind.
  intros level P m i Hl Hn Hb Hda H Hfresh.
  cbn [GetNodeName plain_below distinct_attrs] in *.
  apply andb_true_iff in Hda as [Hnd%bool_decide_eq_true Hda].
  rewrite mapFile_unfold, spec_entries_unfold. cbv zeta.
  rewrite (node_key_sibling m P level name i H).
  set (K := sibling_key P level name i) in *.
  assert (HKn : K ≠ "") by by apply sibling_key_nonempty.
  assert (HmK : m !! K = None).
  { destruct (m !! K) eqn:E; [|done]. assert (i < i); [|lia].
    apply H. fold K. eauto. }
  set (m0 := <[K := default valDNE content]> m).
  set (m' := mapAttrs K attrs m0).
  assert (Hext0 : adds m m0 [(K, default valDNE content)]).
  { intros k v. unfold m0.
    rewrite list_elem_of_singleton, lookup_insert. case_decide as Hd.
    - subst k. rewrite HmK. split; [intros [= <-]; by right|].
      by intros [?|[= ->]].
    - split; [by left|]. intros [?|[= ? ?]]; [done|]. by subst. }
  assert (Hext1 : adds m0 m' (attr_entries K attrs)).
  { apply mapAttrs_adds; [done|]. intros a _. unfold m0.
    rewrite lookup_insert_ne; [by apply Hfresh|].
    intros E. symmetry in E. by apply sapp_neq_self in E. }
  assert (Hbelow : ∀ rest v, m' !! (K ++ String "." rest) = Some v → False).
  { intros rest v [[Hv|[= E _]%list_elem_of_singleton]%Hext0|Hin]%Hext1.
    - by rewrite (Hfresh "."%char rest) in Hv.
    - by apply sapp_neq_self in E.
    - apply list_elem_of_fmap in Hin as (a & [= E _] & _).
      by apply (inj (String.append K)) in E. }
  change ((K, default valDNE content)
          :: attr_entries K attrs
             ++ spec_entry_siblings K (level + 1) [] children)%list
    with ([(K, default valDNE content)]
          ++ attr_entries K attrs
             ++ spec_entry_siblings K (level + 1) [] children)%list.
  apply (adds_app m m0); [done|]. apply (adds_app m0 m'); [done|].
  apply (children_adds children IH); auto.
  - lia.
  - intros n j Hnj. unfold occurrences. rewrite filter_nil. simpl.
    split; [|lia]. intros [v Hv]. exfalso.
    rewrite sibling_key_segment, (child_prefix_dot K), sapp_assoc in Hv
      by (done || lia).
    apply (Hbelow _ _ Hv).
  - intros n j d rest Hnj Hd [v Hv]. exfalso.
    rewrite sibling_key_segment, (child_prefix_dot K), !sapp_assoc in Hv
      by (done || lia).
    apply (Hbelow _ _ Hv).
Qed.

Lemma flatten_adds root_node :
  plain_below root_node = true → distinct_attrs root_node = true →
  ∀ k v, flatten root_node !! k = Some v ↔
         (k, v) ∈ spec_entries "" 1 root_node.
Proof.
  destruct root_node as [name content attrs children]. intros Hb Hda.
  cbn [plain_below distinct_attrs] in *.
  apply andb_true_iff in Hda as [Hnd%bool_decide_eq_true Hda].
  unfold flatten. rewrite mapFile_unfold, spec_entries_unfold.
  cbv zeta. change (node_key ∅ (bare_path 1 "" name)) with "".
  set (m0 := <["" := default valDNE content]> (∅ : gmap string string)).
  set (m := mapAttrs "" attrs m0).
  assert (Hext1 : adds m0 m (attr_entries "" attrs)).
  { apply mapAttrs_adds; [done|]. intros a _. unfold m0.
    by rewrite lookup_insert_ne, lookup_empty. }
  assert (Hm : ∀ k v, m !! k = Some v → k = "" ∨ ∃ a, k = String ":" a).
  { intros k v [Hv|Hin]%Hext1.
    - unfold m0 in Hv. rewrite lookup_insert in Hv. case_decide; [by left|].
      by rewrite lookup_empty in Hv.
    - apply list_elem_of_fmap in Hin as (a & [= -> _] & _). right. by eexists. }
  assert (Hext : adds m
    (fold_left (λ m child, mapFile child (1 + 1) "" m) children m)
    (spec_entry_siblings "" (1 + 1) [] children)).
  { apply children_adds; auto.
    - clear. induction children; constructor; auto using node_add.
    - lia.
    - intros n j Hn. unfold occurrences. rewrite filter_nil. simpl.
      split; [|lia]. intros [v Hv]. exfalso.
      rewrite sibling_key_segment in Hv by lia. cbn in Hv.
      apply Hm in Hv as [E|[a E]].
      + by apply segment_nonempty in E.
      + apply (f_equal (has_char ":")) in E.
        rewrite segment_no_colon in E by done. by vm_compute in E.
    - intros n j d rest Hn Hd [v Hv]. exfalso.
      rewrite sibling_key_segment in Hv by lia. cbn in Hv.
      apply Hm in Hv as [E|[a E]].
      + revert E. by apply sapp_nonempty_r.
      + apply (delim_split_inj (segment n j) "" d ":" rest a) in E;
          [|by (apply segment_no_dot || apply segment_no_colon)..
           |done|done|done|done].
        by apply segment_nonempty in E. }
  intros k v. rewrite (Hext k v), (Hext1 k v). unfold m0.
  rewrite lookup_insert, elem_of_cons, elem_of_app.
  case_decide as Hd.
  - subst k. split.
    + intros [[E|?]|?]; auto. left. by injection E as <-.
    + intros [E|[?|?]]; auto. left. left. by injection E as ->.
  - rewrite lookup_empty. split.
    + intros [[?|?]|?]; auto. done.
    + intros [E|[?|?]]; auto. injection E as E _. by subst.
Qed.

(** X12: the whole map of a document whose element names are plain and
    whose elements have attributes of different names.  Its entries are
    those of the rule and no other: every element under the path of its
    parent, a [.] and its name, followed by [[i]] when [i > 0] earlier
    siblings have its name, holding its content; every attribute under
    the key of its element, a [:] and its name, holding its value; no
    content and no value stand as [<DNE/>].  The entries of the
    elements are those whose key holds no [:]. *)
Theorem flatten_entries root_node :
  plain_below root_node = true → distinct_attrs root_node = true →
  (∀ k v, flatten root_node !! k = Some v ↔
          (k, v) ∈ spec_entries "" 1 root_node) ∧
  (∀ k v, (k, v) ∈ spec_flatten root_node ↔
          (k, v) ∈ spec_entries "" 1 root_node ∧ has_char ":" k = false).
Proof.
  intros Hb Hda. pose proof (flatten_adds root_node Hb Hda) as Hall.
  pose proof (flatten_extends root_node Hb) as Hnodes.
  split; [done|]. intros k v. rewrite <- Hall. split.
  - intros Hin.
    assert (Hc : has_char ":" k = false)
      by by apply (spec_nodes_no_colon root_node "" 1 k v).
    split; [|done]. by apply Hnodes.
  - intros [Hv Hc]. by apply Hnodes.
Qed.

Lemma flatten_entries_witness :
  flatten ex_histograms !! "Histograms.Histogram[1]:name" = Some "h2" ↔
  ("Histograms.Histogram[1]:name", "h2") ∈ spec_entries "" 1 ex_histograms.
Proof. apply (flatten_entries ex_histograms); reflexivity. Defined.

(** ** Reading a loaded document *)

Lemma clean_canonize k : clean k ↔ canonize k = k.
Proof.
  split.
  - intros [Hs Hf]. rewrite canonize_unfold_spaceless by done. by rewrite Hf.
  - intros E. assert (Hs : spaceless k) by (rewrite <- E; apply canonize_spaceless).
    split; [done|]. rewrite canonize_unfold_spaceless in E by done.
    destruct (Str.find "[0]" k) as [pos|] eqn:Hf; [|done]. exfalso.
    apply find_Some_length in Hf. simpl in Hf.
    apply (f_equal String.length) in E. rewrite erase_length in E by done.
    lia.
Qed.

Lemma spaceless_app s t : spaceless s → spaceless t → spaceless (s ++ t).
Proof.
  induction s as [|c s IH]; simpl; [done|]. intros [Hc Hs] Ht. auto.
Qed.

Lemma spaceless_has_char s :
  (∀ c, Str.isspace c = true → has_char c s = false) → spaceless s.
Proof.
  induction s as [|a s IH]; intros Hs; [done|]. split.
  - destruct (Str.isspace a) eqn:E; [|done].
    specialize (Hs a E). simpl in Hs. by rewrite Ascii.eqb_refl in Hs.
  - apply IH. intros c Hc. specialize (Hs c Hc). simpl in Hs.
    by apply orb_false_elim in Hs as [_ ?].
Qed.

Lemma spaceless_index_suffix j : spaceless (index_suffix j).
Proof.
  apply spaceless_has_char. intros c Hc.
  destruct (isspace_not_digit c Hc) as [Hd _].
  apply has_char_index_suffix; [done|by intros ->..].
Qed.

(** No [[0]] where there is no [[]. *)
Lemma find_zero_no_bracket s :
  has_char "[" s = false → Str.find "[0]" s = None.
Proof.
  induction s as [|c s IH]; [done|]. simpl has_char.
  intros [Hc Hs]%orb_false_elim. cbn [Str.find].
  assert (E : Str.starts_with "[0]" (String c s) = false).
  { cbn [Str.starts_with]. rewrite Ascii.eqb_sym in Hc. by rewrite Hc. }
  rewrite E, (IH Hs). done.
Qed.

(** Two texts without [[0]] joined where the second one does not begin
    with [0] or []]. *)
Lemma find_zero_app a c b :
  c ≠ "0"%char → c ≠ "]"%char →
  Str.find "[0]" a = None → Str.find "[0]" (String c b) = None →
  Str.find "[0]" (a ++ String c b) = None.
Proof.
  intros H0 Hb. induction a as [|x a IH]; [done|].
  change (String x a ++ String c b) with (String x (a ++ String c b)).
  cbn [Str.find].
  destruct (Str.starts_with "[0]" (String x a)) eqn:E1; [done|].
  destruct (Str.find "[0]" a) eqn:E2; [done|]. intros _ Hf.
  rewrite (IH eq_refl Hf).
  assert (E : Str.starts_with "[0]" (String x (a ++ String c b)) = false).
  { destruct a as [|y [|z a]]; cbn [String.append Str.starts_with] in *.
    - destruct (Ascii.eqb "[" x); [|done].
      apply Ascii.eqb_neq in H0. rewrite Ascii.eqb_sym in H0. by rewrite H0.
    - destruct (Ascii.eqb "[" x); [|done].
      destruct (Ascii.eqb "0" y); [|done].
      apply Ascii.eqb_neq in Hb. rewrite Ascii.eqb_sym in Hb. by rewrite Hb.
    - exact E1. }
  by rewrite E.
Qed.

Lemma find_zero_index_suffix j : j ≠ 0 → Str.find "[0]" (index_suffix j) = None.
Proof.
  intros Hj. unfold index_suffix.
  set (ds := NilEmpty.string_of_uint (Nat.to_uint j)).
  assert (Hds : has_char "[" (ds ++ "]") = false).
  { rewrite has_char_app. unfold ds. by rewrite has_char_digits. }
  assert (Hcl : has_char "]" ds = false) by (unfold ds; by rewrite has_char_digits).
  change ("[" ++ ds ++ "]") with (String "[" (ds ++ "]")). cbn [Str.find].
  destruct (Str.starts_with "[0]" (String "[" (ds ++ "]"))) eqn:E.
  - exfalso. apply Hj. apply index_suffix_inj. unfold index_suffix. fold ds.
    apply starts_with_spec in E as [t E]. injection E as E.
    destruct ds as [|d1 [|d2 ds']]; simpl in E.
    + discriminate.
    + by injection E as -> _.
    + injection E as -> -> _. simpl in Hcl. by vm_compute in Hcl.
  - by rewrite (find_zero_no_bracket _ Hds).
Qed.

Lemma tidy_clean s : tidy s = true → clean s.
Proof. intros E%String.eqb_eq. by apply clean_canonize. Qed.

Lemma clean_segment n i : plain_name n = true → tidy n = true →
  clean (segment n i).
Proof.
  intros (_ & _ & _ & Hn)%plain_name_spec [Hs Hf]%tidy_clean.
  unfold segment. destruct (Nat.eqb_spec i 0) as [->|Hi]; [done|]. split.
  - apply spaceless_app; [done|apply spaceless_index_suffix].
  - unfold index_suffix.
    change ("[" ++ NilEmpty.string_of_uint (Nat.to_uint i) ++ "]")
      with (String "[" (NilEmpty.string_of_uint (Nat.to_uint i) ++ "]")).
    apply find_zero_app; [done|done|done|].
    by apply (find_zero_index_suffix i).
Qed.

Lemma clean_extend K d s :
  is_delim d = true → clean K → clean s → clean (K ++ String d s).
Proof.
  intros Hd [HKs HKf] [Hs Hf]. split.
  - apply spaceless_app; [done|]. split; [|done].
    by apply is_delim_spec in Hd as [-> | ->].
  - assert (Hd0 : d ≠ "0"%char ∧ d ≠ "]"%char ∧ d ≠ "["%char)
      by by apply is_delim_spec in Hd as [-> | ->].
    destruct Hd0 as (H0 & Hc & Ho).
    apply find_zero_app; [done..|]. cbn [Str.find].
    assert (E : Str.starts_with "[0]" (String d s) = false).
    { cbn [Str.starts_with]. apply Ascii.eqb_neq in Ho.
      rewrite Ascii.eqb_sym in Ho. by rewrite Ho. }
    by rewrite E, Hf.
Qed.

Lemma clean_sibling_key K level n i :
  (1 < level)%Z → clean K → plain_name n = true → tidy n = true →
  clean (sibling_key K level n i).
Proof.
  intros Hl HK Hn Ht. rewrite sibling_key_segment by done.
  unfold child_prefix, pathDelim. destruct (String.eqb_spec K "") as [->|HKn].
  - by apply clean_segment.
  - rewrite sapp_assoc. apply (clean_extend K "."); [done|done|].
    by apply clean_segment.
Qed.

Lemma spec_entries_clean c : ∀ K level k v,
  (0 < level)%Z → plain_below c = true → tidy_below c = true → clean K →
  (k, v) ∈ spec_entries K level c → clean k.
Proof.
  induction c as [name content attrs children IH] using XMLNode_tree_ind.
  intros K level k v Hl Hb Ht HK. rewrite spec_entries_unfold.
  cbn [plain_below tidy_below] in *.
  apply andb_true_iff in Ht as [Hta Htc].
  intros [[= -> ->]|[Hin|Hin]%elem_of_app]%elem_of_cons; [done| |].
  { apply list_elem_of_fmap in Hin as (a & [= -> _] & Ha).
    apply clean_extend; [done|done|]. apply tidy_clean.
    rewrite forallb_forall in Hta. apply Hta. by apply list_elem_of_In. }
  revert Hb Htc Hin. generalize (@nil string) as before.
  induction IH as [|c cs Hc _ IHcs]; intros before Hb Htc;
    cbn [spec_entry_siblings forallb] in *.
  - by intros ?%elem_of_nil.
  - apply andb_true_iff in Hb as [[Hn Hbc]%andb_true_iff Hb].
    apply andb_true_iff in Htc as [[Htn Htcc]%andb_true_iff Htc].
    intros [Hin|Hin]%elem_of_app; [|by eapply IHcs].
    apply (Hc _ (level + 1)%Z k v) in Hin; [done|lia|done|done|].
    by apply clean_sibling_key; [lia|..].
Qed.

(** X13: reading a document that was loaded, when its element names are
    plain and the attributes of every element differ in their names.  A
    path exists when its canonical form is a key of the rule, and
    [get<std::string>] gives the text the rule has for it, else the
    default.  When [canonize] leaves all names alone, it leaves every
    key of the rule alone, so each entry is read back through its own
    key. *)
Theorem load_then_get (ParseString ParseFile : string → option XMLNode)
    cfg filename asString root_node :
  parse ParseString ParseFile filename asString = Some root_node →
  plain_below root_node = true → distinct_attrs root_node = true →
  let cfg' := load ParseString ParseFile cfg filename asString in
  let rule := spec_entries "" 1 root_node in
  (∀ p, exists_ cfg' p = true ↔ ∃ v, (canonize p, v) ∈ rule) ∧
  (∀ p d v, get_string cfg' p d = Some v ↔
     (canonize p, v) ∈ rule ∨ (v = d ∧ ∀ w, (canonize p, w) ∉ rule)) ∧
  (tidy_below root_node = true →
   ∀ k v, (k, v) ∈ rule →
     canonize k = k ∧ exists_ cfg' k = true ∧
     ∀ d, get_string cfg' k d = Some v).
Proof.
  intros Hp Hb Hda cfg' rule. unfold cfg'.
  rewrite (load_success _ _ _ _ _ _ Hp).
  pose proof (flatten_adds root_node Hb Hda) as Hrule. fold rule in Hrule.
  assert (Hex : ∀ p, exists_ {| mErrorParsing := mErrorParsing cfg;
                                mNodes := flatten root_node |} p = true
                     ↔ ∃ v, (canonize p, v) ∈ rule).
  { intros p. rewrite exists_lookup. cbn [mNodes]. unfold is_Some.
    by setoid_rewrite Hrule. }
  assert (Hget : ∀ p d v,
            get_string {| mErrorParsing := mErrorParsing cfg;
                          mNodes := flatten root_node |} p d = Some v ↔
            (canonize p, v) ∈ rule ∨ (v = d ∧ ∀ w, (canonize p, w) ∉ rule)).
  { intros p d v. unfold get_string, exists_, count, at_. cbn [mNodes].
    destruct (flatten root_node !! canonize p) as [w|] eqn:E; simpl.
    - rewrite <- Hrule, E. split; [by left|].
      intros [?|[_ Hno]]; [done|]. exfalso. apply (Hno w). by apply Hrule.
    - split.
      + intros [= ->]. right. split; [done|]. intros w Hw%Hrule. congruence.
      + intros [Hin%Hrule|[-> _]]; congruence. }
  split; [done|]. split; [done|].
  intros Ht k v Hin.
  assert (Hk : canonize k = k).
  { apply clean_canonize. apply (spec_entries_clean root_node "" 1 k v); try done. }
  split; [done|]. split.
  - apply Hex. rewrite Hk. eauto.
  - intros d. apply Hget. left. by rewrite Hk.
Qed.

Lemma load_then_get_witness :
  get_string
    (load (λ _, Some ex_histograms) (λ _, None) TXmlConfig_new "doc" true)
    "Histograms.Histogram[1]:name" "NA" = Some "h2".
Proof.
  apply (load_then_get (λ _, Some ex_histograms) (λ _, None)
           TXmlConfig_new "doc" true ex_histograms eq_refl eq_refl eq_refl).
  - reflexivity.
  - apply (bool_decide_unpack _). by vm_compute.
Defined.

(** ** The dump *)

Lemma concat_empty_cons x xs :
  String.concat "" (x :: xs) = x ++ String.concat "" xs.
Proof. destruct xs; simpl; [by rewrite sapp_nil_r|done]. Qed.

Lemma count_char_app c s t :
  count_char c (s ++ t) = count_char c s + count_char c t.
Proof. induction s as [|a s IH]; simpl; [done|]. rewrite IH. lia. Qed.

Lemma count_char_none c s : has_char c s = false → count_char c s = 0.
Proof.
  induction s as [|a s IH]; simpl; [done|].
  intros [-> Hs]%orb_false_elim. by rewrite IH.
Qed.

Lemma entries_lookup (m : gmap string string) k v :
  (k, v) ∈ entries m ↔ m !! k = Some v.
Proof.
  unfold entries. by rewrite merge_sort_Permutation, elem_of_map_to_list.
Qed.

Lemma entries_length (m : gmap string string) :
  List.length (entries m) = size m.
Proof.
  unfold entries. by rewrite merge_sort_Permutation, length_map_to_list.
Qed.

Lemma dump_lines cfg :
  dump cfg = String.concat "" (dump_line <$> entries (mNodes cfg)).
Proof.
  unfold dump. generalize (entries (mNodes cfg)) as l.
  enough (H : ∀ (l : list (string * string)) acc,
    fold_left (λ sstr (kv : string * string),
                 sstr ++ "[" ++ kv.1 ++ "] = " ++ kv.2 ++ endl) l acc
    = acc ++ String.concat "" (dump_line <$> l)) by (intros l; apply H).
  induction l as [|kv l IH]; intros acc.
  - simpl. by rewrite sapp_nil_r.
  - cbn [fold_left fmap list_fmap]. rewrite IH, concat_empty_cons.
    by rewrite sapp_assoc.
Qed.

(** X14: [dump] writes one line [[key] = value] for every entry of the
    map and nothing else, the lines by increasing key.  It is empty for
    the empty map only, it does not look at the error flag, and it has as
    many newlines as the map has entries when no key and no value holds
    one. *)
Theorem dump_spec cfg :
  dump cfg = String.concat "" (dump_line <$> entries (mNodes cfg)) ∧
  StronglySorted (strict String.le) (entries (mNodes cfg)).*1 ∧
  (∀ k v, (k, v) ∈ entries (mNodes cfg) ↔ mNodes cfg !! k = Some v) ∧
  List.length (entries (mNodes cfg)) = size (mNodes cfg) ∧
  (dump cfg = "" ↔ mNodes cfg = ∅) ∧
  (∀ e, dump {| mErrorParsing := e; mNodes := mNodes cfg |} = dump cfg) ∧
  ((∀ k v, mNodes cfg !! k = Some v →
      has_char "010" k = false ∧ has_char "010" v = false) →
   count_char "010" (dump cfg) = size (mNodes cfg)).
Proof.
  split; [apply dump_lines|]. split; [apply entries_keys_sorted|].
  split; [apply entries_lookup|]. split; [apply entries_length|].
  split; [|split; [done|]].
  - rewrite dump_lines. pose proof (entries_length (mNodes cfg)) as Hl.
    destruct (entries (mNodes cfg)) as [|kv l] eqn:E.
    + split; [|done]. intros _. apply map_size_empty_inv. by rewrite <- Hl.
    + split.
      * cbn [fmap list_fmap]. rewrite concat_empty_cons. done.
      * intros Hm. rewrite Hm, map_size_empty in Hl. done.
  - intros Hnl. rewrite dump_lines, <- entries_length.
    assert (Hall : ∀ kv, kv ∈ entries (mNodes cfg) →
              has_char "010" kv.1 = false ∧ has_char "010" kv.2 = false).
    { intros [k v] Hin%entries_lookup. by apply Hnl. }
    revert Hall. generalize (entries (mNodes cfg)) as l.
    induction l as [|kv l IH]; intros Hall; [done|].
    cbn [fmap list_fmap]. rewrite concat_empty_cons, count_char_app.
    rewrite IH by (intros kv' Hin; apply Hall; by right).
    destruct (Hall kv) as [Hk Hv]; [by left|].
    unfold dump_line, endl. rewrite !count_char_app.
    rewrite (count_char_none _ _ Hk), (count_char_none _ _ Hv). done.
Qed.

Lemma dump_spec_witness :
  count_char "010" (dump (set_string (set_string TXmlConfig_new "b" "2") "a" "1"))
  = size (mNodes (set_string (set_string TXmlConfig_new "b" "2") "a" "1")).
Proof.
  apply dump_spec. intros k v.
  change (mNodes (set_string (set_string TXmlConfig_new "b" "2") "a" "1"))
    with (<["a" := "1"]> (<["b" := "2"]> (∅ : gmap string string))).
  rewrite !lookup_insert. repeat case_decide; subst; try done.
  - by intros [= <-].
  - by intros [= <-].
Defined.

(** ** Histograms from the configuration *)

Lemma get_string_lookup cfg q d :
  get_string cfg q d = Some (default d (mNodes cfg !! canonize q)).
Proof.
  unfold get_string, exists_, count, at_.
  by destruct (mNodes cfg !! canonize q).
Qed.

Lemma getVector_lookup {T} (conv : string → T) cfg q dv :
  getVector conv cfg q dv =
  Some match mNodes cfg !! canonize q with
       | None => dv
       | Some val => conv <$> split (Str.remove_space val)
       end.
Proof.
  unfold getVector, exists_, count, at_.
  destruct (mNodes cfg !! canonize q); simpl; [|done].
  by rewrite fold_left_push.
Qed.

Lemma get_TH1_unfold (rv : spec_float) cfg p hDefault :
  get_TH1 rv cfg p hDefault =
  match
    match mNodes cfg !! canonize (p ++ ":bins-x") with
    | None => [Double.lit 1 1; Double.lit 0 1; Double.lit 1 1]
    | Some val => convert rv <$> split (Str.remove_space val)
    end
  with
  | b0 :: b1 :: b2 :: _ =>
      Some (Some (mkTH1F
        (default "hist_name" (mNodes cfg !! canonize (p ++ ":name")))
        (default "title" (mNodes cfg !! canonize (p ++ ":title")))
        b0 b1 b2))
  | _ => None
  end.
Proof.
  unfold get_TH1. rewrite !get_string_lookup, getVector_lookup. simpl.
  by destruct (match mNodes cfg !! canonize (p ++ ":bins-x") with
               | None => _ | Some val => _ end) as [|b0 [|b1 [|b2 bins']]].
Qed.

(** X15: the [get<TH1*>] of the example.  It never gives back the
    default pointer nor a null one.  Name and title are the attributes
    [name] and [title] of the path, [hist_name] and [title] when these
    are missing; the bins are the first three numbers of the attribute
    [bins-x], which are 1, 0 and 1 when it is missing, and with fewer
    than three numbers in it the result is undefined. *)
Theorem get_TH1_spec (rv : spec_float) cfg p hDefault :
  let bins :=
    match mNodes cfg !! canonize (p ++ ":bins-x") with
    | None => [Double.lit 1 1; Double.lit 0 1; Double.lit 1 1]
    | Some val => convert rv <$> split (Str.remove_space val)
    end in
  get_TH1 rv cfg p hDefault ≠ Some None ∧
  (∀ hDefault', get_TH1 rv cfg p hDefault' = get_TH1 rv cfg p hDefault) ∧
  (is_Some (get_TH1 rv cfg p hDefault) ↔ 3 ≤ List.length bins) ∧
  (∀ h, get_TH1 rv cfg p hDefault = Some (Some h) ↔
     GetName h = default "hist_name" (mNodes cfg !! canonize (p ++ ":name")) ∧
     GetTitle h = default "title" (mNodes cfg !! canonize (p ++ ":title")) ∧
     bins !! 0 = Some (nbinsx h) ∧ bins !! 1 = Some (xlow h) ∧
     bins !! 2 = Some (xup h)).
Proof.
  intros bins. setoid_rewrite get_TH1_unfold. fold bins.
  generalize (default "hist_name" (mNodes cfg !! canonize (p ++ ":name"))).
  generalize (default "title" (mNodes cfg !! canonize (p ++ ":title"))).
  intros title name.
  destruct bins as [|b0 [|b1 [|b2 bins']]]; simpl.
  1-3: split; [done|]; split; [done|]; split;
    [split; [by intros [? ?]|intros; lia]
    |intros h; split; [done|by intros (_ & _ & ? & ? & ?)]].
  split; [done|]. split; [done|]. split.
  - split; [lia|eauto].
  - intros [n t x y z]. simpl. split.
    + by intros [= <- <- <- <- <-].
    + by intros (-> & -> & [= ->] & [= ->] & [= ->]).
Qed.

Lemma get_TH1_spec_witness :
  is_Some (get_TH1 (Double.lit 0 1) TXmlConfig_new "Histograms.Histogram" None).
Proof.
  apply (get_TH1_spec (Double.lit 0 1) TXmlConfig_new "Histograms.Histogram").
  vm_compute. lia.
Defined.

(** X16: the loop of [example()].  It is defined when the [get<TH1*>] of
    every path under [Histograms] is, and then reports one histogram for
    every such path, in the order of [childrenOf], named as the
    attribute [name] of the path says: the test for a null pointer never
    skips one. *)
Theorem example_hists_spec (rv : spec_float) cfg :
  (is_Some (example_hists rv cfg) ↔
   Forall (λ p, is_Some (get_TH1 rv cfg p None)) (childrenOf cfg "Histograms")) ∧
  (∀ hs, example_hists rv cfg = Some hs →
     Forall2 (λ p h, get_TH1 rv cfg p None = Some (Some h))
       (childrenOf cfg "Histograms") hs ∧
     List.length hs = List.length (childrenOf cfg "Histograms") ∧
     GetName <$> hs =
       (λ p, default "hist_name" (mNodes cfg !! canonize (p ++ ":name")))
         <$> childrenOf cfg "Histograms").
Proof.
  unfold example_hists. generalize (childrenOf cfg "Histograms") as paths.
  assert (Hstep : ∀ p, get_TH1 rv cfg p None = None ∨
                       ∃ h, get_TH1 rv cfg p None = Some (Some h)).
  { intros p. rewrite get_TH1_unfold.
    destruct (match mNodes cfg !! canonize (p ++ ":bins-x") with
              | None => _ | Some val => _ end) as [|b0 [|b1 [|b2 bins']]];
      eauto. }
  intros paths. split.
  - induction paths as [|p paths IH]; simpl.
    + split; [constructor|eauto].
    + rewrite Forall_cons, <- IH.
      destruct (Hstep p) as [->|[h ->]]; simpl.
      * split; [by intros [? ?]|by intros [[? ?] _]].
      * destruct (example_loop rv cfg paths); simpl.
        -- split; eauto.
        -- split; [by intros [? ?]|by intros [_ [? ?]]].
  - induction paths as [|p paths IH]; simpl; intros hs.
    + intros [= <-]. by repeat split; try constructor.
    + destruct (Hstep p) as [E|[h E]]; rewrite E; simpl; [done|].
      destruct (example_loop rv cfg paths) as [rest|]; simpl; [|done].
      intros [= <-]. destruct (IH rest eq_refl) as (H2 & Hl & Hn).
      split; [by constructor|]. split; [simpl; lia|].
      cbn [fmap list_fmap]. rewrite Hn. f_equal.
      rewrite get_TH1_unfold in E.
      destruct (match mNodes cfg !! canonize (p ++ ":bins-x") with
                | None => _ | Some val => _ end) as [|b0 [|b1 [|b2 bins']]];
        try done. by injection E as <-.
Qed.

Lemma example_hists_spec_witness :
  GetName <$>
    [ mkTH1F "h1" "first" (Double.lit 50 1) (Double.lit 0 1) (Double.lit 1 1);
      mkTH1F "h2" "title" (Double.lit 1 1) (Double.lit 0 1) (Double.lit 1 1) ]
  = (λ p, default "hist_name"
            (flatten ex_histograms !! canonize (p ++ ":name")))
      <$> childrenOf {| mErrorParsing := false;
                        mNodes := flatten ex_histograms |} "Histograms".
Proof.
  apply (proj2 (example_hists_spec (Double.lit 0 1)
                  {| mErrorParsing := false;
                     mNodes := flatten ex_histograms |})).
  by vm_compute.
Defined.

(** ** The index of a repeated node *)

(** X17: [pathCount] is the one index from 1 on whose path is free while
    all lower ones are taken.  It is at most the size of the map plus
    one, it is 1 exactly when the path with index 1 is free, and taking
    the path it names moves it on by at least one. *)
Theorem pathCount_spec (m : gmap string string) (path : string) :
  (∀ r, pathCount m path = r ↔
        1 ≤ r ∧ m !! (path ++ index_suffix r) = None ∧
        ∀ j, 1 ≤ j < r → is_Some (m !! (path ++ index_suffix j))) ∧
  pathCount m path ≤ size m + 1 ∧
  (pathCount m path = 1 ↔ m !! (path ++ index_suffix 1) = None) ∧
  (∀ v, pathCount m path
        < pathCount (<[path ++ index_suffix (pathCount m path) := v]> m) path).
Proof.
  destruct (pathCount_least m path) as (H1 & Hfree & Hbelow).
  assert (Huniq : ∀ r, 1 ≤ r → m !! (path ++ index_suffix r) = None →
            (∀ j, 1 ≤ j < r → is_Some (m !! (path ++ index_suffix j))) →
            pathCount m path = r).
  { intros r Hr Hf Hb.
    destruct (lt_eq_lt_dec (pathCount m path) r) as [[Hlt|?]|Hgt]; [|done|].
    - destruct (Hb (pathCount m path)) as [w Hw]; [lia|]. congruence.
    - destruct (Hbelow r) as [w Hw]; [lia|]. congruence. }
  split; [|split; [|split]].
  - intros r. split; [by intros <-|]. intros (? & ? & ?). by apply Huniq.
  - pose proof (keys_bound m ((λ j, path ++ index_suffix j)
                                <$> seq 1 (pathCount m path - 1))) as Hb.
    rewrite length_fmap, length_seq in Hb.
    enough (pathCount m path - 1 ≤ size m) by lia. apply Hb.
    + apply NoDup_fmap_2; [|apply NoDup_seq].
      intros i j. apply indexed_path_inj.
    + intros k (j & -> & Hj%elem_of_seq)%list_elem_of_fmap.
      apply Hbelow. lia.
  - split; [by intros <-|]. intros Hf. apply Huniq; [lia|done|].
    intros j Hj. lia.
  - intros v. set (r := pathCount m path) in *.
    set (m' := <[path ++ index_suffix r := v]> m).
    destruct (pathCount_least m' path) as (H1' & Hfree' & Hbelow').
    destruct (lt_eq_lt_dec r (pathCount m' path)) as [[Hlt|Heq]|Hgt]; [done|..].
    + exfalso. rewrite <- Heq in Hfree'. unfold m' in Hfree'.
      by rewrite lookup_insert_eq in Hfree'.
    + exfalso. destruct (Hbelow (pathCount m' path)) as [w Hw]; [lia|].
      assert (E : m' !! (path ++ index_suffix (pathCount m' path))
                  = m !! (path ++ index_suffix (pathCount m' path))).
      { apply lookup_insert_ne. intros E%indexed_path_inj. lia. }
      congruence.
Qed.

(** ** The children of a loaded document *)

(** X18: [childrenOf] on a loaded document whose element names are
    plain.  It gives the keys of the elements that are longer than the
    canonical query and begin with it: no attribute, not the query
    itself, and the elements at every depth below it. *)
Theorem childrenOf_loaded (ParseString ParseFile : string → option XMLNode)
    cfg filename asString root_node :
  parse ParseString ParseFile filename asString = Some root_node →
  plain_below root_node = true →
  let cfg' := load ParseString ParseFile cfg filename asString in
  (∀ p k, k ∈ childrenOf cfg' p ↔
     ∃ v rest, rest ≠ "" ∧ k = canonize p ++ rest ∧
               (k, v) ∈ spec_flatten root_node) ∧
  (∀ p k, k ∈ childrenOf cfg' p → has_char ":" k = false ∧ k ≠ canonize p) ∧
  (∀ k v, (k, v) ∈ spec_flatten root_node → k ≠ "" → k ∈ childrenOf cfg' "").
Proof.
  intros Hp Hb cfg'. unfold cfg'. rewrite (load_success _ _ _ _ _ _ Hp).
  pose proof (flatten_extends root_node Hb) as Hrule.
  assert (Hin : ∀ p k,
    k ∈ childrenOf {| mErrorParsing := mErrorParsing cfg;
                      mNodes := flatten root_node |} p ↔
    ∃ v rest, rest ≠ "" ∧ k = canonize p ++ rest ∧
              (k, v) ∈ spec_flatten root_node).
  { intros p k. rewrite childrenOf_filter, list_elem_of_filter.
    rewrite elem_of_entries_keys, is_child_prefix. cbn [mNodes]. split.
    - intros [(rest & Hr & -> & Hc) [v Hv]]. exists v, rest.
      split; [done|]. split; [done|]. by apply Hrule.
    - intros (v & rest & Hr & -> & Hv).
      assert (Hc : has_char ":" (canonize p ++ rest) = false).
      { by apply (spec_nodes_no_colon root_node "" 1 _ v). }
      split; [by exists rest|]. exists v. by apply Hrule. }
  split; [done|]. split.
  - intros p k (v & rest & Hr & -> & Hv)%Hin. split.
    + by apply (spec_nodes_no_colon root_node "" 1 _ v).
    + by apply sapp_neq_self.
  - intros k v Hv Hk. apply Hin. exists v, k. done.
Qed.

Lemma childrenOf_loaded_witness :
  "Histograms.Histogram[1]" ∈
    childrenOf
      (load (λ _, Some ex_histograms) (λ _, None) TXmlConfig_new "doc" true)
      "".
Proof.
  apply (proj2 (proj2 (childrenOf_loaded (λ _, Some ex_histograms) (λ _, None)
           TXmlConfig_new "doc" true ex_histograms eq_refl eq_refl))
           "Histograms.Histogram[1]" "<DNE/>").
  - apply (bool_decide_unpack _). by vm_compute.
  - done.
Defined.

(** ** The root element and the constructor *)

(** X19: the name of the root element is never looked at: at a level of
    1 or less [mapFile] does the same for every name of its node, so two
    documents that differ in the name of the root only give one map.  The
    constructor with a file name reads the file, never the text, into a
    fresh object: the error flag is set exactly when the file does not
    parse. *)
Theorem root_name_ignored :
  (∀ name name' content attrs children level path m,
     (level ≤ 1)%Z →
     mapFile (mkNode name content attrs children) level path m =
     mapFile (mkNode name' content attrs children) level path m) ∧
  (∀ name name' content attrs children,
     flatten (mkNode name content attrs children) =
     flatten (mkNode name' content attrs children)) ∧
  (∀ (ParseString ParseString' ParseFile : string → option XMLNode) filename,
     TXmlConfig_open ParseString ParseFile filename =
     TXmlConfig_open ParseString' ParseFile filename ∧
     (mErrorParsing (TXmlConfig_open ParseString ParseFile filename) = true ↔
      ParseFile filename = None) ∧
     (∀ root_node, ParseFile filename = Some root_node →
        mNodes (TXmlConfig_open ParseString ParseFile filename)
        = flatten root_node)).
Proof.
  assert (H : ∀ name name' content attrs children level path m,
            (level ≤ 1)%Z →
            mapFile (mkNode name content attrs children) level path m =
            mapFile (mkNode name' content attrs children) level path m).
  { intros name name' content attrs children level path m Hl.
    rewrite !mapFile_unfold. unfold bare_path.
    destruct (Z.ltb_spec 1 level); [lia|done]. }
  split; [exact H|]. split.
  - intros. unfold flatten. by apply H.
  - intros PS PS' PF filename. unfold TXmlConfig_open, load.
    destruct (PF filename) as [root_node|]; simpl; naive_solver.
Qed.

Lemma root_name_ignored_witness :
  mapFile (mkNode "config" None [] []) 1 "" ∅ =
  mapFile (mkNode "settings" None [] []) 1 "" ∅.
Proof. apply (proj1 root_name_ignored). lia. Defined.
